(** * massa-web3: operation confirmation tracking and wallet key management

    A shallow embedding of
    - [src/web3/SmartContractsClient.ts]: [getOperationStatus] and
      [awaitRequiredOperationStatus];
    - [src/web3/WalletClient.ts]: the wallet's account sequence, its base
      account, the account-adding methods and [walletSignMessage].

    Remote calls are modelled by an oracle giving the outcome of the n-th
    lookup.  The wallet is an explicit state; a method is a function from the
    state to a result (a value or a thrown error) and the state it leaves
    behind.  The cryptographic helpers imported from [utils/Xbqcrypto] and
    [@noble/secp256k1] are taken as a record of functions. *)

From Stdlib Require Import List String Ascii Bool Arith Lia.
From Stdlib Require Import Strings.Byte.
Import ListNotations.
Local Open Scope string_scope.
Local Open Scope list_scope.

(** ** Operation status (SmartContractsClient.ts) *)

Module Tracker.

(** [EOperationStatus] *)
Inductive EOperationStatus : Type :=
| INCLUDED_PENDING
| AWAITING_INCLUSION
| FINAL
| INCONSISTENT
| NOT_FOUND.

Definition status_eqb (a b : EOperationStatus) : bool :=
  match a, b with
  | INCLUDED_PENDING, INCLUDED_PENDING
  | AWAITING_INCLUSION, AWAITING_INCLUSION
  | FINAL, FINAL
  | INCONSISTENT, INCONSISTENT
  | NOT_FOUND, NOT_FOUND => true
  | _, _ => false
  end.

(** The fields of [IOperationData] that the classification reads. *)
Record IOperationData : Type := {
  is_final : bool;
  in_blocks : list string;
  in_pool : bool
}.

(** Outcome of one [publicApiClient.getOperations([opId])] call: the promise
    rejects with [ex], or resolves to an array ([None] stands for a null or
    undefined value, which the code tests with [!operationData]). *)
Inductive Lookup : Type :=
| Rejects (ex : string)
| Resolves (operationData : option (list IOperationData)).

(** [getOperationStatus], lines 236-251.  A rejected lookup propagates. *)
Definition getOperationStatus (lookup : Lookup) : string + EOperationStatus :=
  match lookup with
  | Rejects ex => inl ex
  | Resolves None => inr NOT_FOUND
  | Resolves (Some operationData) =>
      if Nat.eqb (List.length operationData) 0 then inr NOT_FOUND
      else
        match nth_error operationData 0 with
        | None => inr NOT_FOUND
        | Some opData =>
            if is_final opData then inr FINAL
            else if Nat.ltb 0 (List.length (in_blocks opData)) then inr INCLUDED_PENDING
            else if in_pool opData then inr AWAITING_INCLUSION
            else inr INCONSISTENT
        end
  end.

(** *** The polling loop, lines 253-283 *)

(** The loop's variables, with the number of lookups and of [wait] calls
    performed so far. *)
Record Loop : Type := {
  errCounter : nat;
  pendingCounter : nat;
  lookups : nat;
  waits : nat
}.

(** How a run ends: [return status], [throw ex] in the catch block, or
    [throw new Error(msg)] after the pending counter ran out. *)
Inductive Ending : Type :=
| Returned (status : EOperationStatus)
| Rethrown (ex : string)
| GaveUp.

Definition start : Loop :=
  {| errCounter := 0; pendingCounter := 0; lookups := 0; waits := 0 |}.

(** The effects of one pass on the loop variables. *)
Definition lookedUp (st : Loop) : Loop :=
  {| errCounter := errCounter st; pendingCounter := pendingCounter st;
     lookups := S (lookups st); waits := waits st |}.

Definition incrErr (st : Loop) : Loop :=
  {| errCounter := S (errCounter st); pendingCounter := pendingCounter st;
     lookups := lookups st; waits := waits st |}.

Definition incrPending (st : Loop) : Loop :=
  {| errCounter := errCounter st; pendingCounter := S (pendingCounter st);
     lookups := lookups st; waits := waits st |}.

Definition waited (st : Loop) : Loop :=
  {| errCounter := errCounter st; pendingCounter := pendingCounter st;
     lookups := lookups st; waits := S (waits st) |}.

Section Await.

(** [oracle n] is the outcome of the n-th lookup of the run (from 0). *)
Variable oracle : nat -> Lookup.
Variable requiredStatus : EOperationStatus.

(** Lines 257-269: [let status = NOT_FOUND], then the try / catch.  The
    catch block either throws or falls through with [status] unchanged. *)
Definition tryLookup (st : Loop) : (Loop * Ending) + (Loop * EOperationStatus) :=
  let status := NOT_FOUND in
  match getOperationStatus (oracle (lookups st)) with
  | inr s => inr (lookedUp st, s)
  | inl ex =>
      let st1 := incrErr (lookedUp st) in
      if Nat.ltb 100 (errCounter st1) then inl (st1, Rethrown ex)
      else inr (waited st1, status)
  end.

(** One pass through the body of [while (true)]: the final loop variables
    with the ending, or the loop variables for the next pass. *)
Definition iteration (st : Loop) : (Loop * Ending) + Loop :=
  match tryLookup st with
  | inl stop => inl stop
  | inr (st2, status) =>
      if status_eqb status requiredStatus then inl (st2, Returned status)
      else
        let st3 := incrPending st2 in
        if Nat.ltb 1000 (pendingCounter st3) then inl (st3, GaveUp)
        else inr (waited st3)
  end.

(** [while (true)], unrolled at most [fuel] times; [None] when the fuel
    runs out before the loop ends. *)
Fixpoint awaitLoop (fuel : nat) (st : Loop) : option (Loop * Ending) :=
  match fuel with
  | 0 => None
  | S fuel' =>
      match iteration st with
      | inl stop => Some stop
      | inr st' => awaitLoop fuel' st'
      end
  end.

Definition awaitRequiredOperationStatus (fuel : nat) : option (Loop * Ending) :=
  awaitLoop fuel start.

(** The loop variables after [n] passes, when none of them ended the run. *)
Fixpoint passes (n : nat) : option Loop :=
  match n with
  | 0 => Some start
  | S m =>
      match passes m with
      | Some st => match iteration st with inr st' => Some st' | inl _ => None end
      | None => None
      end
  end.

(** The status a pass compares with the required one: the classified
    status, or the initial value [NOT_FOUND] when the lookup rejected. *)
Definition observed (l : Lookup) : EOperationStatus :=
  match getOperationStatus l with
  | inr s => s
  | inl _ => NOT_FOUND
  end.

Definition rejected (l : Lookup) : bool :=
  match getOperationStatus l with inl _ => true | inr _ => false end.

(** Number of rejected lookups among the first [n]. *)
Fixpoint failures (n : nat) : nat :=
  match n with
  | 0 => 0
  | S m => failures m + (if rejected (oracle m) then 1 else 0)
  end.

(** The counters as the specification words them.  [consecutiveFailures n]
    is the length of the run of rejected lookups that ends with lookup
    [n - 1]: a resolved lookup sets it back to 0. *)
Fixpoint consecutiveFailures (n : nat) : nat :=
  match n with
  | 0 => 0
  | S m => if rejected (oracle m) then S (consecutiveFailures m) else 0
  end.

(** [pendingSuccesses n]: the resolved lookups among the first [n] whose
    status differs from the required one. *)
Fixpoint pendingSuccesses (n : nat) : nat :=
  match n with
  | 0 => 0
  | S m =>
      pendingSuccesses m +
      (if rejected (oracle m) then 0
       else if status_eqb (observed (oracle m)) requiredStatus then 0 else 1)
  end.

End Await.

(** *** Concrete runs *)

(** A node that answers once, with an empty record list, at lookup 50 and
    is unreachable otherwise. *)
Definition flakyNode (n : nat) : Lookup :=
  if Nat.eqb n 50 then Resolves (Some []) else Rejects "unreachable".

(** A node that is unreachable for the first lookup and then keeps
    answering with an empty record list. *)
Definition slowNode (n : nat) : Lookup :=
  if Nat.eqb n 0 then Rejects "unreachable" else Resolves (Some []).

(** A node that reports the operation in the pool three times and is then
    unreachable. *)
Definition droppingNode (n : nat) : Lookup :=
  if Nat.ltb n 3 then
    Resolves (Some [{| is_final := false; in_blocks := []; in_pool := true |}])
  else Rejects "unreachable".

End Tracker.

(** ** Wallet (WalletClient.ts) *)

Module Wallet.

Definition bytes : Type := list byte.

(** [IAccount]: every field is a string or null ([None]). *)
Record IAccount : Type := {
  address : option string;
  publicKey : option string;
  privateKey : option string;
  randomEntropy : option string
}.

(** [ISignature] *)
Record ISignature : Type := {
  hex : string;
  base58Encoded : string
}.

(** What a method can throw, one constructor per [throw] of the file; a
    property read on null is [TypeError], and [LibraryError] is an exception
    raised inside one of the imported helpers. *)
Inductive Thrown : Type :=
| MaxAccountsExceeded (submitted : nat)
| MissingEntropyOrPrivateKey
| PublicKeyMismatch
| AddressMismatch
| NoPrivateKeyToSign
| NoPublicKeyToVerify
| InvalidSignatureLength (got : nat)
| SignatureNotVerified
| TypeError
| LibraryError (msg : string).

Definition VERSION_NUMBER : nat := 0.
Definition ADDRESS_PRAEFIX : string := "A".
Definition MAX_WALLET_ACCOUNTS : nat := 256.

(** JavaScript truthiness of a [string | null]: null and the empty string
    are falsy. *)
Definition truthy (s : option string) : bool :=
  match s with
  | Some s => negb (String.eqb s EmptyString)
  | None => false
  end.

(** [a || b] on [string | null]. *)
Definition orElse (a b : option string) : option string :=
  if truthy a then a else b.

(** [String.prototype.toLowerCase] on ASCII text, which is what an address
    is (the prefix and base-58 characters): the letters A-Z are lowered
    and every other byte is kept.  On a string with characters outside
    ASCII the JavaScript function lowers more (U+212A becomes k); what is
    stated below about the lookup by an address that the caller supplies
    is stated for ASCII addresses, see [isAscii]. *)
Definition lowerAscii (c : ascii) : ascii :=
  let n := nat_of_ascii c in
  if andb (Nat.leb 65 n) (Nat.leb n 90) then ascii_of_nat (n + 32) else c.

Fixpoint toLowerCase (s : string) : string :=
  match s with
  | EmptyString => EmptyString
  | String c rest => String (lowerAscii c) (toLowerCase rest)
  end.

(** The helpers imported from [utils/Xbqcrypto] and [@noble/secp256k1].  A
    helper that can throw returns the exception's message on the left. *)
Record Backend : Type := {
  base58Decode : string -> string + bytes;
  base58Encode : bytes -> string;
  varintEncode : nat -> bytes;
  hashBlake3 : bytes -> bytes;
  getPublicKey : bytes -> string + bytes;
  hashToPrivateKey : bytes -> string + bytes;
  signSync : bytes -> bytes -> string + bytes;
  verifySync : bytes -> bytes -> bytes -> string + bool;
  bytesToHex : bytes -> string
}.

(** The object's fields. *)
Record WalletClient : Type := {
  wallet : list IAccount;
  baseAccount : option IAccount
}.

(** A method runs on the object's state and leaves a state behind, also
    when it throws. *)
Definition M (A : Type) : Type := WalletClient -> (Thrown + A) * WalletClient.

Definition ret {A} (a : A) : M A := fun wc => (inr a, wc).

Definition throw {A} (e : Thrown) : M A := fun wc => (inl e, wc).

Definition bind {A B} (c : M A) (k : A -> M B) : M B :=
  fun wc =>
    match c wc with
    | (inl e, wc') => (inl e, wc')
    | (inr a, wc') => k a wc'
    end.

Notation "x <- c ;; k" := (bind c (fun x => k))
  (at level 61, c at next level, right associativity).
Notation "c ;;; k" := (bind c (fun _ => k))
  (at level 61, right associativity).

(** A pure computation that may throw, run inside a method. *)
Definition lift {A} (r : Thrown + A) : M A := fun wc => (r, wc).

(** A helper's exception becomes a [LibraryError]. *)
Definition lib {A} (r : string + A) : Thrown + A :=
  match r with
  | inl msg => inl (LibraryError msg)
  | inr a => inr a
  end.

Definition getWallet : M (list IAccount) := fun wc => (inr (wallet wc), wc).

(** [this.wallet.push(...accounts)] *)
Definition pushAccounts (accounts : list IAccount) : M unit :=
  fun wc => (inr tt, {| wallet := wallet wc ++ accounts; baseAccount := baseAccount wc |}).

Definition assignBaseAccount (a : option IAccount) : M unit :=
  fun wc => (inr tt, {| wallet := wallet wc; baseAccount := a |}).

(** [Array.prototype.find] with the callback of line 103: the first member
    whose lowered address equals the lowered argument.  [toLowerCase] on a
    null address is a TypeError. *)
Fixpoint findByAddress (w : list IAccount) (addr : option string) : Thrown + option IAccount :=
  match w with
  | [] => inr None
  | a :: rest =>
      match address a, addr with
      | Some x, Some y =>
          if String.eqb (toLowerCase x) (toLowerCase y) then inr (Some a)
          else findByAddress rest addr
      | _, _ => inl TypeError
      end
  end.

(** [getWalletAccountByAddress], lines 102-104. *)
Definition getWalletAccountByAddress (addr : option string) : M (option IAccount) :=
  w <- getWallet ;; lift (findByAddress w addr).

(** [cleanWallet], lines 97-99. *)
Definition cleanWallet : M unit :=
  fun wc => (inr tt, {| wallet := []; baseAccount := baseAccount wc |}).

(** [getBaseAccount], lines 87-89. *)
Definition getBaseAccount : M (option IAccount) :=
  fun wc => (inr (baseAccount wc), wc).

(** [findIndex] with the callback of line 191 followed by [splice(index, 1)]:
    the first member whose address is strictly equal to [addr] is removed. *)
Fixpoint spliceFirst (w : list IAccount) (addr : string) : list IAccount :=
  match w with
  | [] => []
  | a :: rest =>
      match address a with
      | Some x => if String.eqb x addr then rest else a :: spliceFirst rest addr
      | None => a :: spliceFirst rest addr
      end
  end.

(** [removeAddressesFromWallet], lines 189-196. *)
Definition removeAddressesFromWallet (addresses : list string) : M unit :=
  fun wc =>
    (inr tt, {| wallet := fold_left spliceFirst addresses (wallet wc);
                baseAccount := baseAccount wc |}).

Section WithBackend.

Variable B : Backend.

(** [base58Decode] applied to a [string | null]: the decoder rejects a
    value that is not a string. *)
Definition decode (s : option string) : Thrown + bytes :=
  match s with
  | Some s => lib (base58Decode B s)
  | None => inl TypeError
  end.

(** [ADDRESS_PRAEFIX + base58Encode(Buffer.concat([version, hashBlake3(publicKey)]))] *)
Definition deriveAddress (publicKey : bytes) : string :=
  let version := varintEncode B VERSION_NUMBER in
  ADDRESS_PRAEFIX ++ base58Encode B (version ++ hashBlake3 B publicKey).

(** Lines 114-119 and 123-127: the account built from one private key. *)
Definition accountOfPrivateKey (privateKey : string) : Thrown + IAccount :=
  match lib (base58Decode B privateKey) with
  | inl e => inl e
  | inr privateKeyBase58Decoded =>
      match lib (getPublicKey B privateKeyBase58Decoded) with
      | inl e => inl e
      | inr publicKey =>
          inr {| address := Some (deriveAddress publicKey);
                 publicKey := Some (base58Encode B publicKey);
                 privateKey := Some privateKey;
                 randomEntropy := None |}
      end
  end.

(** The [for] loop of lines 113-129. *)
Fixpoint addPrivateKeysLoop (privateKeys : list string) (accountsToCreate : list IAccount)
  : M (list IAccount) :=
  match privateKeys with
  | [] => ret accountsToCreate
  | privateKey :: rest =>
      account <- lift (accountOfPrivateKey privateKey) ;;
      found <- getWalletAccountByAddress (address account) ;;
      match found with
      | None => addPrivateKeysLoop rest (accountsToCreate ++ [account])
      | Some _ => addPrivateKeysLoop rest accountsToCreate
      end
  end.

(** [addPrivateKeysToWallet], lines 107-133. *)
Definition addPrivateKeysToWallet (privateKeys : list string) : M (list IAccount) :=
  if Nat.ltb MAX_WALLET_ACCOUNTS (List.length privateKeys) then
    throw (MaxAccountsExceeded (List.length privateKeys))
  else
    accountsToCreate <- addPrivateKeysLoop privateKeys [] ;;
    pushAccounts accountsToCreate ;;;
    ret accountsToCreate.

(** Lines 147-157: the private key the entry resolves to. *)
Definition resolvePrivateKey (account : IAccount) : Thrown + option string :=
  if truthy (randomEntropy account) then
    match decode (randomEntropy account) with
    | inl e => inl e
    | inr base58DecodedRandomEntropy =>
        match lib (hashToPrivateKey B base58DecodedRandomEntropy) with
        | inl e => inl e
        | inr privateKey =>
            inr (orElse (Some (base58Encode B privateKey)) (Wallet.privateKey account))
        end
    end
  else inr (orElse None (Wallet.privateKey account)).

(** Lines 143-172: the checks and derivations on one entry, up to the
    account that line 175 would store. *)
Definition reconcile (account : IAccount) : Thrown + IAccount :=
  if andb (negb (truthy (randomEntropy account))) (negb (truthy (Wallet.privateKey account)))
  then inl MissingEntropyOrPrivateKey
  else
    match resolvePrivateKey account with
    | inl e => inl e
    | inr privateKeyBase58Encoded =>
        match decode privateKeyBase58Encoded with
        | inl e => inl e
        | inr decoded =>
            match lib (getPublicKey B decoded) with
            | inl e => inl e
            | inr publicKey =>
                let publicKeyBase58Encoded := base58Encode B publicKey in
                if andb (truthy (Wallet.publicKey account))
                        (negb (match Wallet.publicKey account with
                               | Some p => String.eqb p publicKeyBase58Encoded
                               | None => false
                               end))
                then inl PublicKeyMismatch
                else
                  let addressBase58Encoded := deriveAddress publicKey in
                  if andb (truthy (address account))
                          (negb (match address account with
                                 | Some a => String.eqb a addressBase58Encoded
                                 | None => false
                                 end))
                  then inl AddressMismatch
                  else
                    inr {| address := Some addressBase58Encoded;
                           privateKey := privateKeyBase58Encoded;
                           publicKey := Some publicKeyBase58Encoded;
                           randomEntropy := randomEntropy account |}
            end
        end
    end.

(** The [for] loop of lines 142-182. *)
Fixpoint addAccountsLoop (accounts : list IAccount) (accountsAdded : list IAccount)
  : M (list IAccount) :=
  match accounts with
  | [] => ret accountsAdded
  | account :: rest =>
      created <- lift (reconcile account) ;;
      found <- getWalletAccountByAddress (address created) ;;
      match found with
      | None => addAccountsLoop rest (accountsAdded ++ [created])
      | Some _ => addAccountsLoop rest accountsAdded
      end
  end.

(** [addAccountsToWallet], lines 136-186. *)
Definition addAccountsToWallet (accounts : list IAccount) : M (list IAccount) :=
  if Nat.ltb MAX_WALLET_ACCOUNTS (List.length accounts) then
    throw (MaxAccountsExceeded (List.length accounts))
  else
    accountsAdded <- addAccountsLoop accounts [] ;;
    pushAccounts accountsAdded ;;;
    ret accountsAdded.

(** [setBaseAccount], lines 75-84. *)
Definition setBaseAccount (account : IAccount) : M unit :=
  found <- getWalletAccountByAddress (address account) ;;
  match found with
  | None =>
      baseAccountAdded <- addAccountsToWallet [account] ;;
      assignBaseAccount (nth_error baseAccountAdded 0)
  | Some _ => assignBaseAccount (Some account)
  end.

(** [Buffer.from(data)] for [data : string | Buffer]. *)
Definition bufferFrom (data : string + bytes) : bytes :=
  match data with
  | inl s => list_byte_of_string s
  | inr b => b
  end.

(** [walletSignMessage], lines 310-355. *)
Definition walletSignMessage (data : string + bytes) (signer : IAccount)
  : Thrown + ISignature :=
  if negb (truthy (privateKey signer)) then inl NoPrivateKeyToSign
  else if negb (truthy (publicKey signer)) then inl NoPublicKeyToVerify
  else
    match decode (privateKey signer) with
    | inl e => inl e
    | inr privateKeyBase58Decoded =>
        let bytesCompact := bufferFrom data in
        let messageHashDigest := hashBlake3 B bytesCompact in
        match lib (signSync B messageHashDigest privateKeyBase58Decoded) with
        | inl e => inl e
        | inr sig =>
            if negb (Nat.eqb (List.length sig) 64) then
              inl (InvalidSignatureLength (List.length sig))
            else
              let verified : Thrown + unit :=
                if truthy (publicKey signer) then
                  match decode (publicKey signer) with
                  | inl e => inl e
                  | inr publicKeyBase58Decoded =>
                      match lib (verifySync B sig messageHashDigest publicKeyBase58Decoded) with
                      | inl e => inl e
                      | inr isVerified =>
                          if negb isVerified then inl SignatureNotVerified else inr tt
                      end
                  end
                else inr tt in
              match verified with
              | inl e => inl e
              | inr _ => inr {| hex := bytesToHex B sig; base58Encoded := base58Encode B sig |}
              end
        end
    end.

(** The wallet's mutating operations, to state what holds after any
    sequence of them. *)
Inductive Op : Type :=
| OpSetBaseAccount (account : IAccount)
| OpAddPrivateKeys (privateKeys : list string)
| OpAddAccounts (accounts : list IAccount)
| OpRemoveAddresses (addresses : list string)
| OpCleanWallet.

(** The state an operation leaves, whether it returned or threw. *)
Definition runOp (wc : WalletClient) (op : Op) : WalletClient :=
  match op with
  | OpSetBaseAccount a => snd (setBaseAccount a wc)
  | OpAddPrivateKeys ks => snd (addPrivateKeysToWallet ks wc)
  | OpAddAccounts accs => snd (addAccountsToWallet accs wc)
  | OpRemoveAddresses addrs => snd (removeAddressesFromWallet addrs wc)
  | OpCleanWallet => snd (cleanWallet wc)
  end.

Definition runOps (wc : WalletClient) (ops : list Op) : WalletClient :=
  fold_left runOp ops wc.

End WithBackend.

(** The fields as the constructor leaves them before its optional
    [setBaseAccount] call (lines 43-44). *)
Definition emptyClient : WalletClient := {| wallet := []; baseAccount := None |}.

(** The base account, when one is set, is a member of the account
    sequence. *)
Definition baseIsMember (wc : WalletClient) : Prop :=
  match baseAccount wc with
  | Some b => In b (wallet wc)
  | None => True
  end.

(** Two accounts whose addresses are equal up to case, the comparison of
    [getWalletAccountByAddress]. *)
Definition sameAddress (a b : IAccount) : Prop :=
  exists x y, address a = Some x /\ address b = Some y /\ toLowerCase x = toLowerCase y.

(** The base account, when one is set, has the address of a member. *)
Definition baseAddressInWallet (wc : WalletClient) : Prop :=
  match baseAccount wc with
  | Some b => exists m, In m (wallet wc) /\ sameAddress m b
  | None => True
  end.

(** The operations that never take an account out of the wallet. *)
Definition keepsMembers (op : Op) : bool :=
  match op with
  | OpSetBaseAccount _ | OpAddPrivateKeys _ | OpAddAccounts _ => true
  | OpRemoveAddresses _ | OpCleanWallet => false
  end.

(** A string of ASCII characters: on these [toLowerCase] above is the
    JavaScript function. *)
Definition isAscii (s : string) : bool :=
  forallb (fun c => Nat.ltb (nat_of_ascii c) 128) (list_ascii_of_string s).

(** An address that is null or ASCII text. *)
Definition asciiAddress (a : option string) : bool :=
  match a with
  | Some s => isAscii s
  | None => true
  end.

(** An operation whose caller-supplied lookup address, if it has one, is
    ASCII: only [setBaseAccount] looks up an address of the caller's. *)
Definition asciiOp (op : Op) : bool :=
  match op with
  | OpSetBaseAccount account => asciiAddress (address account)
  | OpAddPrivateKeys _ | OpAddAccounts _ | OpRemoveAddresses _ | OpCleanWallet => true
  end.

(** No two members at different positions have the same address up to
    case. *)
Definition uniqueAddresses (w : list IAccount) : Prop :=
  forall i j a b, nth_error w i = Some a -> nth_error w j = Some b ->
    sameAddress a b -> i = j.

(** *** A small executable backend

    It stands in for the cryptographic libraries when the wallet is run on a
    concrete input.  It keeps what the runs below rely on: the decoder
    rejects a character outside the base-58 alphabet, a signature has 64
    bytes, and a signature verifies only under the public key of the private
    key that made it.  It is not the production cryptography. *)
Module Toy.

Definition alphabet : list ascii :=
  list_ascii_of_string "123456789ABCDEFGHJKLMNPQRSTUVWXYZabcdefghijkmnopqrstuvwxyz".

Definition inAlphabet (c : ascii) : bool := existsb (Ascii.eqb c) alphabet.

Definition base58Decode (s : string) : string + bytes :=
  if forallb inAlphabet (list_ascii_of_string s) then inr (list_byte_of_string s)
  else inl "Non-base58 character".

Definition base58Encode (b : bytes) : string := string_of_list_byte b.

Definition varintEncode (n : nat) : bytes :=
  match Byte.of_nat n with
  | Some b => [b]
  | None => []
  end.

Definition hashBlake3 (b : bytes) : bytes := rev b.

Definition getPublicKey (sk : bytes) : string + bytes :=
  match sk with
  | [] => inl "Expected private key"
  | _ => inr (sk ++ sk)
  end.

Definition hashToPrivateKey (entropy : bytes) : string + bytes :=
  match entropy with
  | [] => inl "Expected entropy"
  | _ => inr (rev entropy)
  end.

Definition pad64 (b : bytes) : bytes := firstn 64 (b ++ repeat Byte.x00 64).

Definition signSync (digest sk : bytes) : string + bytes :=
  match getPublicKey sk with
  | inl e => inl e
  | inr pk => inr (pad64 (pk ++ digest))
  end.

Definition bytes_eqb (a b : bytes) : bool :=
  if list_eq_dec Byte.byte_eq_dec a b then true else false.

Definition verifySync (sig msg pk : bytes) : string + bool :=
  inr (bytes_eqb sig (pad64 (pk ++ msg))).

Definition hexDigit (n : nat) : ascii :=
  nth n (list_ascii_of_string "0123456789abcdef") "0"%char.

Definition bytesToHex (b : bytes) : string :=
  string_of_list_ascii
    (flat_map (fun x => [hexDigit (Byte.to_nat x / 16); hexDigit (Byte.to_nat x mod 16)]) b).

Definition backend : Backend :=
  {| Wallet.base58Decode := base58Decode;
     Wallet.base58Encode := base58Encode;
     Wallet.varintEncode := varintEncode;
     Wallet.hashBlake3 := hashBlake3;
     Wallet.getPublicKey := getPublicKey;
     Wallet.hashToPrivateKey := hashToPrivateKey;
     Wallet.signSync := signSync;
     Wallet.verifySync := verifySync;
     Wallet.bytesToHex := bytesToHex |}.

(** Accounts and key material for the concrete runs. *)

(** An entry given by its private key alone, and the account the wallet
    stores for it. *)
Definition alice : IAccount :=
  {| address := None; publicKey := None; privateKey := Some "k1"; randomEntropy := None |}.

Definition aliceStored : IAccount :=
  {| address := Some (deriveAddress backend (list_byte_of_string "k1k1"));
     publicKey := Some "k1k1";
     privateKey := Some "k1";
     randomEntropy := None |}.

(** A caller's object with the address of [aliceStored] and no key. *)
Definition aliceWatchOnly : IAccount :=
  {| address := address aliceStored; publicKey := None; privateKey := None;
     randomEntropy := None |}.

(** An entry that supplies an entropy and a private key. *)
Definition bobBoth : IAccount :=
  {| address := None; publicKey := None; privateKey := Some "k2"; randomEntropy := Some "e1" |}.

(** The account the wallet stores for [bobBoth]. *)
Definition bobStored : IAccount :=
  {| address := Some (deriveAddress backend (list_byte_of_string "1e1e"));
     publicKey := Some "1e1e";
     privateKey := Some "1e";
     randomEntropy := Some "e1" |}.

(** A private key with the public key of another one. *)
Definition mallory : IAccount :=
  {| address := None; publicKey := Some "k2k2"; privateKey := Some "k1"; randomEntropy := None |}.

(** A private key with its own public key. *)
Definition aliceSigner : IAccount :=
  {| address := None; publicKey := Some "k1k1"; privateKey := Some "k1"; randomEntropy := None |}.

End Toy.

End Wallet.

(** ** The rest of WalletClient.ts and the sending paths of
    SmartContractsClient.ts *)

Module Client.
Import Wallet.

(** What the methods below throw besides what the wallet throws:
    [Raised] carries an error of the wallet's own methods, [Rejected] the
    rejection of a remote call. *)
Inductive Failure : Type :=
| NoSignerAccount (accountSignerAddress : string)
| NoTxSender
| WalletsNotFullyRetrieved (got expected : nat)
| ContractDataRequired
| Raised (e : Thrown)
| Rejected (ex : string).

(** [OperationTypeId] *)
Inductive OperationTypeId : Type :=
| OpTransaction
| OpRollBuy
| OpRollSell
| OpExecuteSC
| OpCallSC.

(** The fields of [IClientConfig] that the methods read. *)
Record IClientConfig : Type := {
  periodOffset : nat;
  retryStrategyOn : bool
}.

(** The fields of [INodeStatus] that the methods read:
    [next_slot.period] and [config.max_block_size]. *)
Record INodeStatus : Type := {
  next_slot_period : nat;
  max_block_size : nat
}.

Section WithBackend.

Variable B : Backend.

(** [getAccountFromPrivateKey], lines 245-263. *)
Definition getAccountFromPrivateKey (privateKeyBase58 : string) : Thrown + IAccount :=
  match lib (base58Decode B privateKeyBase58) with
  | inl e => inl e
  | inr privateKeyBase58Decoded =>
      match lib (getPublicKey B privateKeyBase58Decoded) with
      | inl e => inl e
      | inr publicKey =>
          inr {| address := Some (deriveAddress B publicKey);
                 privateKey := Some privateKeyBase58;
                 publicKey := Some (base58Encode B publicKey);
                 randomEntropy := None |}
      end
  end.

(** [getAccountFromEntropy], lines 266-288. *)
Definition getAccountFromEntropy (entropyBase58 : string) : Thrown + IAccount :=
  match lib (base58Decode B entropyBase58) with
  | inl e => inl e
  | inr entropyBase58Decoded =>
      match lib (hashToPrivateKey B entropyBase58Decoded) with
      | inl e => inl e
      | inr privateKey =>
          match lib (getPublicKey B privateKey) with
          | inl e => inl e
          | inr publicKey =>
              inr {| address := Some (deriveAddress B publicKey);
                     privateKey := Some (base58Encode B privateKey);
                     publicKey := Some (base58Encode B publicKey);
                     randomEntropy := Some entropyBase58 |}
          end
      end
  end.

(** [walletGenerateNewAccount], lines 221-242, as a function of the 32
    bytes that [secp.utils.randomBytes] draws. *)
Definition walletGenerateNewAccount (randomBytes : bytes) : Thrown + IAccount :=
  match lib (hashToPrivateKey B randomBytes) with
  | inl e => inl e
  | inr privateKey =>
      match lib (getPublicKey B privateKey) with
      | inl e => inl e
      | inr publicKey =>
          inr {| address := Some (deriveAddress B publicKey);
                 privateKey := Some (base58Encode B privateKey);
                 publicKey := Some (base58Encode B publicKey);
                 randomEntropy := Some (base58Encode B randomBytes) |}
      end
  end.

(** The constructor, lines 43-72: the object it returns, or what its
    [setBaseAccount] call throws. *)
Definition newWalletClient (baseAccount : option IAccount) : Thrown + WalletClient :=
  match baseAccount with
  | None => inr emptyClient
  | Some account =>
      match setBaseAccount B account emptyClient with
      | (inl e, _) => inl e
      | (inr _, wc) => inr wc
      end
  end.

(** [getWalletAccounts], lines 92-94. *)
Definition getWalletAccounts : M (list IAccount) :=
  fun wc => (inr (wallet wc), wc).

(** [signMessage], lines 291-297. *)
Definition signMessage (data : string + bytes) (accountSignerAddress : string)
  (wc : WalletClient) : Failure + ISignature :=
  match fst (getWalletAccountByAddress (Some accountSignerAddress) wc) with
  | inl e => inl (Raised e)
  | inr None => inl (NoSignerAccount accountSignerAddress)
  | inr (Some signerAccount) =>
      match walletSignMessage B data signerAccount with
      | inl e => inl (Raised e)
      | inr signature => inr signature
      end
  end.

(** *** Methods that call the node *)

Section WithNode.

(** JavaScript numbers of the payloads, printed by [toString]. *)
Variable number : Type.
Variable toString : number -> string.

(** [IAddressInfo] and [IContractReadOperationData], which the methods
    pass on without reading them. *)
Variable IAddressInfo : Type.
Variable IContractReadOperationData : Type.

Record ITransactionData : Type := {
  tx_fee : number;
  tx_amount : number;
  recipientAddress : string
}.

Record IRollsData : Type := {
  rolls_fee : number;
  rolls_amount : number
}.

Record ICallData : Type := {
  call_fee : number;
  call_maxGas : number;
  call_gasPrice : number;
  parallelCoins : number;
  sequentialCoins : number;
  targetAddress : string;
  functionName : string;
  parameter : string
}.

Record IContractData : Type := {
  sc_fee : number;
  sc_maxGas : number;
  sc_gasPrice : number;
  sc_coins : number;
  contractDataBase64 : option string
}.

Record IReadData : Type := {
  read_maxGas : number;
  simulatedGasPrice : number;
  read_targetAddress : string;
  targetFunction : string;
  read_parameter : string;
  callerAddress : option string
}.

(** The first argument of [compactBytesForOperation]. *)
Inductive OperationData : Type :=
| TxData (d : ITransactionData)
| RollsData (d : IRollsData)
| CallData (d : ICallData)
| ContractData (d : IContractData).

(** The [op] field of a request. *)
Inductive OperationBody : Type :=
| Transaction (amount : string) (recipient_address : string)
| RollBuy (roll_count : number)
| RollSell (roll_count : number)
| CallSC (max_gas : number) (gas_price parallel_coins sequential_coins : string)
    (target_addr target_func param : string)
| ExecuteSC (data : bytes) (max_gas : number) (coins gas_price : string).

(** The object sent with [SEND_OPERATIONS]. *)
Record OperationRequest : Type := {
  expire_period : nat;
  fee : string;
  op : OperationBody;
  creator_public_key : option string;
  signature : string
}.

(** The object sent with [EXECUTE_READ_ONLY_CALL]. *)
Record ReadRequest : Type := {
  rr_max_gas : number;
  simulated_gas_price : string;
  target_address : string;
  target_function : string;
  rr_parameter : string;
  caller_address : option string
}.

(** The node as the methods see it: the outcome of each remote call, the
    rejection's message on the left.  The boolean says whether the request
    went through [trySafeExecute]. *)
Record Node : Type := {
  getNodeStatus : string + INodeStatus;
  getAddresses : bool -> list (option string) -> string + list IAddressInfo;
  sendOperations : bool -> OperationRequest -> string + list string;
  executeReadOnlyCall : bool -> ReadRequest -> string + list IContractReadOperationData
}.

(** What a method does that the outside can see, in order. *)
Inductive Event : Type :=
| NodeStatusQueried
| AddressesRequested (retry : bool) (addresses : list (option string))
| OperationsSent (retry : bool) (data : OperationRequest)
| ReadOnlyCallSent (retry : bool) (data : ReadRequest)
| Warned.

(** A method's result with the events it caused. *)
Definition R (A : Type) : Type := (Failure + A) * list Event.

Definition rret {A} (a : A) : R A := (inr a, []).

Definition rfail {A} (e : Failure) : R A := (inl e, []).

Definition rbind {A C} (c : R A) (k : A -> R C) : R C :=
  match c with
  | (inl e, log) => (inl e, log)
  | (inr a, log) => (fst (k a), log ++ snd (k a))
  end.

Notation "x <~ c ;; k" := (rbind c (fun x => k))
  (at level 61, c at next level, right associativity).

(** An awaited remote call. *)
Definition remote {A} (ev : Event) (outcome : string + A) : R A :=
  (match outcome with
   | inl ex => inl (Rejected ex)
   | inr a => inr a
   end, [ev]).

(** A call into the wallet's own code. *)
Definition local {A} (r : Thrown + A) : R A :=
  (match r with
   | inl e => inl (Raised e)
   | inr a => inr a
   end, []).

Definition emit (ev : Event) : R unit := (inr tt, [ev]).

Variable clientConfig : IClientConfig.
Variable node : Node.

(** [compactBytesForOperation] of [BaseClient], which is not part of the
    modelled files. *)
Variable compactBytesForOperation :
  OperationData -> OperationTypeId -> IAccount -> nat -> string + bytes.

(** [Buffer.from(text, "base64")]. *)
Variable base64Decode : string -> bytes.

(** [executor || this.getBaseAccount()] followed by the [!sender] test. *)
Definition senderOf (executor : option IAccount) (wc : WalletClient) : R IAccount :=
  match (match executor with Some a => Some a | None => baseAccount wc end) with
  | None => rfail NoTxSender
  | Some sender => rret sender
  end.

(** [sendTransaction], lines 369-405. *)
Definition sendTransaction (txData : ITransactionData) (executor : option IAccount)
  (wc : WalletClient) : R (list string) :=
  sender <~ senderOf executor wc ;;
  nodeStatusInfo <~ remote NodeStatusQueried (getNodeStatus node) ;;
  let expiryPeriod := next_slot_period nodeStatusInfo + periodOffset clientConfig in
  bytesCompact <~ local (lib (compactBytesForOperation (TxData txData) OpTransaction
                                 sender expiryPeriod)) ;;
  signature <~ local (walletSignMessage B (inr bytesCompact) sender) ;;
  let data :=
    {| expire_period := expiryPeriod;
       fee := toString (tx_fee txData);
       op := Transaction (toString (tx_amount txData)) (recipientAddress txData);
       creator_public_key := publicKey sender;
       signature := base58Encoded signature |} in
  remote (OperationsSent false data) (sendOperations node false data).

(** [buyRolls], lines 408-442. *)
Definition buyRolls (txData : IRollsData) (executor : option IAccount)
  (wc : WalletClient) : R (list string) :=
  sender <~ senderOf executor wc ;;
  nodeStatusInfo <~ remote NodeStatusQueried (getNodeStatus node) ;;
  let expiryPeriod := next_slot_period nodeStatusInfo + periodOffset clientConfig in
  bytesCompact <~ local (lib (compactBytesForOperation (RollsData txData) OpRollBuy
                                 sender expiryPeriod)) ;;
  signature <~ local (walletSignMessage B (inr bytesCompact) sender) ;;
  let data :=
    {| expire_period := expiryPeriod;
       fee := toString (rolls_fee txData);
       op := RollBuy (rolls_amount txData);
       creator_public_key := publicKey sender;
       signature := base58Encoded signature |} in
  remote (OperationsSent false data) (sendOperations node false data).

(** [sellRolls], lines 445-479. *)
Definition sellRolls (txData : IRollsData) (executor : option IAccount)
  (wc : WalletClient) : R (list string) :=
  sender <~ senderOf executor wc ;;
  nodeStatusInfo <~ remote NodeStatusQueried (getNodeStatus node) ;;
  let expiryPeriod := next_slot_period nodeStatusInfo + periodOffset clientConfig in
  bytesCompact <~ local (lib (compactBytesForOperation (RollsData txData) OpRollSell
                                 sender expiryPeriod)) ;;
  signature <~ local (walletSignMessage B (inr bytesCompact) sender) ;;
  let data :=
    {| expire_period := expiryPeriod;
       fee := toString (rolls_fee txData);
       op := RollSell (rolls_amount txData);
       creator_public_key := publicKey sender;
       signature := base58Encoded signature |} in
  remote (OperationsSent false data) (sendOperations node false data).

(** [callSmartContract], SmartContractsClient.ts lines 98-141. *)
Definition callSmartContract (callData : ICallData) (executor : option IAccount)
  (wc : WalletClient) : R (list string) :=
  nodeStatusInfo <~ remote NodeStatusQueried (getNodeStatus node) ;;
  let expiryPeriod := next_slot_period nodeStatusInfo + periodOffset clientConfig in
  sender <~ senderOf executor wc ;;
  bytesCompact <~ local (lib (compactBytesForOperation (CallData callData) OpCallSC
                                 sender expiryPeriod)) ;;
  signature <~ local (walletSignMessage B (inr bytesCompact) sender) ;;
  let data :=
    {| expire_period := expiryPeriod;
       fee := toString (call_fee callData);
       op := CallSC (call_maxGas callData) (toString (call_gasPrice callData))
               (toString (parallelCoins callData)) (toString (sequentialCoins callData))
               (targetAddress callData) (functionName callData) (parameter callData);
       creator_public_key := publicKey sender;
       signature := base58Encoded signature |} in
  if retryStrategyOn clientConfig then
    remote (OperationsSent true data) (sendOperations node true data)
  else
    remote (OperationsSent false data) (sendOperations node false data).

(** [deploySmartContract], SmartContractsClient.ts lines 48-95.  Reading
    [length] of a null [contractDataBase64] is a TypeError; the test of
    line 71 then only meets the empty string.  The text is base-64, so its
    length in characters is its length in bytes; the warning of line 55 is
    the event [Warned]. *)
Definition deploySmartContract (contractData : IContractData) (executor : option IAccount)
  (wc : WalletClient) : R (list string) :=
  nodeStatusInfo <~ remote NodeStatusQueried (getNodeStatus node) ;;
  let expiryPeriod := next_slot_period nodeStatusInfo + periodOffset clientConfig in
  _ <~ match contractDataBase64 contractData with
       | None => local (inl TypeError)
       | Some text =>
           if Nat.ltb (max_block_size nodeStatusInfo) (2 * String.length text)
           then emit Warned else rret tt
       end ;;
  sender <~ senderOf executor wc ;;
  bytesCompact <~ local (lib (compactBytesForOperation (ContractData contractData)
                                 OpExecuteSC sender expiryPeriod)) ;;
  signature <~ local (walletSignMessage B (inr bytesCompact) sender) ;;
  if negb (truthy (contractDataBase64 contractData)) then rfail ContractDataRequired
  else
    let decodedScBinaryCode :=
      match contractDataBase64 contractData with
      | Some text => base64Decode text
      | None => []
      end in
    let data :=
      {| expire_period := expiryPeriod;
         fee := toString (sc_fee contractData);
         op := ExecuteSC decodedScBinaryCode (sc_maxGas contractData)
                 (toString (sc_coins contractData)) (toString (sc_gasPrice contractData));
         creator_public_key := publicKey sender;
         signature := base58Encoded signature |} in
    remote (OperationsSent false data) (sendOperations node false data).

(** [readSmartContract], SmartContractsClient.ts lines 144-161.
    [getBaseAccount().address] on a wallet without base account is a
    TypeError. *)
Definition readSmartContract (readData : IReadData) (wc : WalletClient)
  : R (list IContractReadOperationData) :=
  caller <~ (if truthy (callerAddress readData) then rret (callerAddress readData)
             else match baseAccount wc with
                  | Some base => rret (address base)
                  | None => local (inl TypeError)
                  end) ;;
  let data :=
    {| rr_max_gas := read_maxGas readData;
       simulated_gas_price := toString (simulatedGasPrice readData);
       target_address := read_targetAddress readData;
       target_function := targetFunction readData;
       rr_parameter := read_parameter readData;
       caller_address := caller |} in
  if retryStrategyOn clientConfig then
    remote (ReadOnlyCallSent true data) (executeReadOnlyCall node true data)
  else
    remote (ReadOnlyCallSent false data) (executeReadOnlyCall node false data).

(** [getWalletAddressesInfo], lines 300-307. *)
Definition getWalletAddressesInfo (addresses : list (option string)) : R (list IAddressInfo) :=
  if retryStrategyOn clientConfig then
    remote (AddressesRequested true addresses) (getAddresses node true addresses)
  else
    remote (AddressesRequested false addresses) (getAddresses node false addresses).

(** The values that the fields of a record of the node can have, with
    the wallet's [string | null] among them; [fieldOf info name] is the
    value of the field [name] of [info] when the record has such a
    field. *)
Variable JsValue : Type.
Variable ofText : option string -> JsValue.
Variable fieldOf : IAddressInfo -> string -> option JsValue.

(** [IFullAddressInfo]: the object of lines 211-216, its three key fields
    and, in [info], the record of the node that was spread into it. *)
Record IFullAddressInfo : Type := {
  full_publicKey : JsValue;
  full_privateKey : JsValue;
  full_randomEntropy : JsValue;
  info : IAddressInfo
}.

(** The field [name] of [{ name: own, ...info }]: the spread comes last,
    so a field of that name in [info] replaces the member's value. *)
Definition spreadOver (i : IAddressInfo) (name : string) (own : option string) : JsValue :=
  match fieldOf i name with
  | Some v => v
  | None => ofText own
  end.

(** The object literal of lines 211-216. *)
Definition fullInfoOf (account : IAccount) (i : IAddressInfo) : IFullAddressInfo :=
  {| full_publicKey := spreadOver i "publicKey" (publicKey account);
     full_privateKey := spreadOver i "privateKey" (privateKey account);
     full_randomEntropy := spreadOver i "randomEntropy" (randomEntropy account);
     info := i |}.

(** [addressesInfo.map((info, index) => ...)] of lines 210-217, with
    [this.wallet[index]] read for each index. *)
Fixpoint mergeInfo (w : list IAccount) (addressesInfo : list IAddressInfo) (index : nat)
  : Thrown + list IFullAddressInfo :=
  match addressesInfo with
  | [] => inr []
  | i :: rest =>
      match nth_error w index with
      | None => inl TypeError
      | Some account =>
          match mergeInfo w rest (S index) with
          | inl e => inl e
          | inr merged => inr (fullInfoOf account i :: merged)
          end
      end
  end.

(** [walletInfo], lines 199-218. *)
Definition walletInfo (wc : WalletClient) : R (list IFullAddressInfo) :=
  if Nat.eqb (List.length (wallet wc)) 0 then rret []
  else
    let addresses := map address (wallet wc) in
    addressesInfo <~ getWalletAddressesInfo addresses ;;
    if negb (Nat.eqb (List.length addressesInfo) (List.length (wallet wc))) then
      rfail (WalletsNotFullyRetrieved (List.length addressesInfo) (List.length (wallet wc)))
    else local (mergeInfo (wallet wc) addressesInfo 0).

(** A request that names [sender]'s public key and carries the base-58
    text of a 64-byte signature that verifies, under that key, for the
    hash of [bytesCompact]. *)
Definition signedBy (sender : IAccount) (bytesCompact : bytes) (data : OperationRequest)
  : Prop :=
  creator_public_key data = publicKey sender /\
  exists pk sig,
    decode B (publicKey sender) = inr pk /\
    List.length sig = 64 /\
    verifySync B sig (hashBlake3 B bytesCompact) pk = inr true /\
    signature data = base58Encode B sig.

(** A request as a sending method builds it for [opData]: the sender is
    the executor or else the base account, the expiry period is the node's
    next period plus the configured offset, and the request is signed by
    the sender over the compacted bytes. *)
Definition sentFor (opData : OperationData) (opType : OperationTypeId)
  (executor : option IAccount) (wc : WalletClient) (data : OperationRequest) : Prop :=
  exists sender status bytesCompact,
    match executor with Some a => Some a | None => baseAccount wc end = Some sender /\
    getNodeStatus node = inr status /\
    expire_period data = next_slot_period status + periodOffset clientConfig /\
    compactBytesForOperation opData opType sender (expire_period data) = inr bytesCompact /\
    signedBy sender bytesCompact data.

End WithNode.

End WithBackend.

Arguments tx_fee {number}.
Arguments tx_amount {number}.
Arguments recipientAddress {number}.
Arguments rolls_fee {number}.
Arguments rolls_amount {number}.
Arguments call_fee {number}.
Arguments call_maxGas {number}.
Arguments call_gasPrice {number}.
Arguments parallelCoins {number}.
Arguments sequentialCoins {number}.
Arguments targetAddress {number}.
Arguments functionName {number}.
Arguments parameter {number}.
Arguments sc_fee {number}.
Arguments sc_maxGas {number}.
Arguments sc_gasPrice {number}.
Arguments sc_coins {number}.
Arguments contractDataBase64 {number}.
Arguments read_maxGas {number}.
Arguments simulatedGasPrice {number}.
Arguments read_targetAddress {number}.
Arguments targetFunction {number}.
Arguments read_parameter {number}.
Arguments callerAddress {number}.
Arguments TxData {number}.
Arguments RollsData {number}.
Arguments CallData {number}.
Arguments ContractData {number}.
Arguments Transaction {number}.
Arguments RollBuy {number}.
Arguments RollSell {number}.
Arguments CallSC {number}.
Arguments ExecuteSC {number}.
Arguments expire_period {number}.
Arguments fee {number}.
Arguments op {number}.
Arguments creator_public_key {number}.
Arguments signature {number}.
Arguments rr_max_gas {number}.
Arguments simulated_gas_price {number}.
Arguments target_address {number}.
Arguments target_function {number}.
Arguments rr_parameter {number}.
Arguments caller_address {number}.
Arguments getNodeStatus {number IAddressInfo IContractReadOperationData}.
Arguments getAddresses {number IAddressInfo IContractReadOperationData}.
Arguments sendOperations {number IAddressInfo IContractReadOperationData}.
Arguments executeReadOnlyCall {number IAddressInfo IContractReadOperationData}.
Arguments NodeStatusQueried {number}.
Arguments AddressesRequested {number}.
Arguments OperationsSent {number}.
Arguments ReadOnlyCallSent {number}.
Arguments Warned {number}.
Arguments full_publicKey {IAddressInfo JsValue}.
Arguments full_privateKey {IAddressInfo JsValue}.
Arguments full_randomEntropy {IAddressInfo JsValue}.
Arguments info {IAddressInfo JsValue}.
Arguments signedBy B {number}.
Arguments rret {number A}.
Arguments rfail {number A}.
Arguments rbind {number A C}.
Arguments remote {number A}.
Arguments local {number A}.
Arguments emit {number}.
Arguments senderOf {number}.

(** *** Predicates on wallets *)

(** A member as the adding methods build it: an address that starts with
    the prefix, and a public key. *)
Definition derivedMember (m : IAccount) : Prop :=
  exists rest pk, address m = Some (String "A" rest) /\ publicKey m = Some pk.

(** Every member has an address. *)
Definition addressed (w : list IAccount) : Prop :=
  forall m, In m w -> exists x, address m = Some x.

(** Operations that add at most one account at a time. *)
Definition oneAtATime (op : Op) : bool :=
  match op with
  | OpAddPrivateKeys privateKeys => Nat.leb (List.length privateKeys) 1
  | OpAddAccounts accounts => Nat.leb (List.length accounts) 1
  | OpSetBaseAccount _ | OpRemoveAddresses _ | OpCleanWallet => true
  end.

(** *** Concrete inputs *)

(** A node that answers every call. *)
Definition readyNode : Node string unit unit :=
  {| getNodeStatus := inr {| next_slot_period := 40; max_block_size := 1000 |};
     getAddresses := fun _ addresses => inr (map (fun _ => tt) addresses);
     sendOperations := fun _ _ => inr ["op1"];
     executeReadOnlyCall := fun _ _ => inr [tt] |}.

Definition config : IClientConfig := {| periodOffset := 5; retryStrategyOn := false |}.

(** A stand-in for the byte compaction: as many bytes as the expiry
    period. *)
Definition compactToy (d : OperationData string) (t : OperationTypeId) (sender : IAccount)
  (expiryPeriod : nat) : string + bytes :=
  inr (repeat Byte.x01 expiryPeriod).

Definition transfer : ITransactionData string :=
  {| tx_fee := "0"; tx_amount := "10"; recipientAddress := "Abob" |}.

Definition contractToy : IContractData string :=
  {| sc_fee := "0"; sc_maxGas := "100"; sc_gasPrice := "1"; sc_coins := "0";
     contractDataBase64 := Some "AGFzbQ" |}.

Definition emptyContract : IContractData string :=
  {| sc_fee := "0"; sc_maxGas := "100"; sc_gasPrice := "1"; sc_coins := "0";
     contractDataBase64 := Some EmptyString |}.

Definition readToy : IReadData string :=
  {| read_maxGas := "100"; simulatedGasPrice := "1"; read_targetAddress := "Acontract";
     targetFunction := "get"; read_parameter := "x"; callerAddress := None |}.

(** A node whose address records have a field named like a key field of
    the wallet, and the field lookup on such records. *)
Definition labelledNode : Node string (list (string * option string)) unit :=
  {| getNodeStatus := inr {| next_slot_period := 40; max_block_size := 1000 |};
     getAddresses := fun _ addresses =>
       inr (map (fun _ => [("balance", Some "5"); ("publicKey", Some "fromNode")]) addresses);
     sendOperations := fun _ _ => inr ["op1"];
     executeReadOnlyCall := fun _ _ => inr [tt] |}.

Definition fieldToy (i : list (string * option string)) (name : string)
  : option (option string) :=
  match find (fun p => String.eqb (fst p) name) i with
  | Some p => Some (snd p)
  | None => None
  end.

End Client.

(** * Properties *)

Module TrackerFacts.
Import Tracker.

Lemma status_eqb_spec a b : reflect (a = b) (status_eqb a b).
Proof. destruct a, b; constructor; congruence. Qed.

Lemma status_eqb_refl a : status_eqb a a = true.
Proof. now destruct a. Qed.

Lemma status_eqb_neq a b : a <> b -> status_eqb a b = false.
Proof. intros H. destruct (status_eqb_spec a b); congruence. Qed.

(** A bounded universal statement checked by running a boolean test. *)
Lemma forallb_below (p : nat -> bool) (n : nat) :
  forallb p (seq 0 n) = true -> forall i, i < n -> p i = true.
Proof.
  intros H i Hi. rewrite forallb_forall in H. apply H, in_seq. lia.
Qed.

Section Run.

Variable oracle : nat -> Lookup.
Variable requiredStatus : EOperationStatus.

Local Abbreviation iteration := (iteration oracle requiredStatus).
Local Abbreviation awaitLoop := (awaitLoop oracle requiredStatus).
Local Abbreviation passes := (passes oracle requiredStatus).
Local Abbreviation pendingSuccesses := (pendingSuccesses oracle requiredStatus).

(** The four ways out of one pass. *)
Lemma iteration_cases st :
  (exists ex, getOperationStatus (oracle (lookups st)) = inl ex /\
              100 < S (errCounter st) /\
              iteration st = inl (incrErr (lookedUp st), Rethrown ex))
  \/ (observed (oracle (lookups st)) = requiredStatus /\
      (rejected (oracle (lookups st)) = true -> S (errCounter st) <= 100) /\
      exists st', iteration st = inl (st', Returned requiredStatus) /\
                  lookups st' = S (lookups st))
  \/ (observed (oracle (lookups st)) <> requiredStatus /\
      (rejected (oracle (lookups st)) = true -> S (errCounter st) <= 100) /\
      1000 < S (pendingCounter st) /\
      exists st', iteration st = inl (st', GaveUp) /\
                  lookups st' = S (lookups st) /\
                  pendingCounter st' = S (pendingCounter st))
  \/ (observed (oracle (lookups st)) <> requiredStatus /\
      (rejected (oracle (lookups st)) = true -> S (errCounter st) <= 100) /\
      S (pendingCounter st) <= 1000 /\
      exists st', iteration st = inr st' /\
                  lookups st' = S (lookups st) /\
                  pendingCounter st' = S (pendingCounter st) /\
                  errCounter st' =
                    errCounter st + (if rejected (oracle (lookups st)) then 1 else 0)).
Proof.
  unfold iteration, Tracker.iteration, tryLookup, observed, rejected.
  destruct (getOperationStatus (oracle (lookups st))) as [ex|s] eqn:E.
  - cbn [errCounter incrErr lookedUp].
    destruct (Nat.ltb_spec 100 (S (errCounter st))) as [Hlt|Hge].
    + left. exists ex. auto.
    + right. destruct (status_eqb_spec NOT_FOUND requiredStatus) as [<-|Hne].
      * left. split; [reflexivity|]. split; [auto|]. eexists. split; reflexivity.
      * right. cbn [pendingCounter incrPending waited incrErr lookedUp].
        destruct (Nat.ltb_spec 1000 (S (pendingCounter st))).
        -- left. repeat split; auto. eexists. repeat split; reflexivity.
        -- right. repeat split; auto. eexists. split; [reflexivity|].
           cbn. repeat split; lia.
  - right. destruct (status_eqb_spec s requiredStatus) as [<-|Hne].
    + left. split; [reflexivity|]. split; [discriminate|]. eexists. split; reflexivity.
    + right. cbn [pendingCounter incrPending lookedUp].
      destruct (Nat.ltb_spec 1000 (S (pendingCounter st))).
      * left. repeat split; auto; try discriminate. eexists. repeat split; reflexivity.
      * right. repeat split; auto; try discriminate. eexists. split; [reflexivity|].
        cbn. repeat split; lia.
Qed.

(** While the run goes on, the pending counter is the number of passes
    made and the error counter the number of rejected lookups: neither is
    ever set back. *)
Lemma passes_counters n st :
  passes n = Some st ->
  lookups st = n /\ pendingCounter st = n /\ errCounter st = failures oracle n /\
  n <= 1000 /\ failures oracle n <= 100.
Proof.
  revert st. induction n as [|n IH]; intros st H; cbn in H.
  - injection H as <-. cbn. repeat split; lia.
  - destruct (passes n) as [st0|] eqn:E; [|discriminate].
    destruct (IH st0 eq_refl) as (Hl & Hp & He & Hn & Hf).
    destruct (iteration_cases st0)
      as [(ex & _ & _ & Hi)|[(_ & _ & st' & Hi & _)|[(_ & _ & _ & st' & Hi & _)|
          (Hobs & Herr & Hle & st' & Hi & Hl' & Hp' & He')]]];
      rewrite Hi in H; try discriminate.
    injection H as <-. rewrite Hl in *. cbn [failures].
    repeat split; try lia.
    destruct (rejected (oracle n)); [specialize (Herr eq_refl)|]; lia.
Qed.

Lemma passes_earlier n st :
  passes (S n) = Some st -> exists st0, passes n = Some st0 /\ iteration st0 = inr st.
Proof.
  cbn. destruct (passes n) as [st0|]; [|discriminate].
  destruct (iteration st0) as [stop|st'] eqn:E; [discriminate|].
  intros H. injection H as <-. eauto.
Qed.

(** The run is still going after [n] passes exactly when none of the
    first [n] statuses was the required one and neither counter ran out. *)
Lemma passes_iff n :
  (exists st, passes n = Some st) <->
  (n <= 1000 /\ failures oracle n <= 100 /\
   forall i, i < n -> observed (oracle i) <> requiredStatus).
Proof.
  induction n as [|n IH].
  - split.
    + intros _. cbn. repeat split; try lia.
    + intros _. eexists. reflexivity.
  - split.
    + intros (st & H). destruct (passes_counters _ _ H) as (_ & _ & _ & Hn & Hf).
      repeat split; auto.
      destruct (passes_earlier _ _ H) as (st0 & H0 & Hi).
      destruct (proj1 IH (ex_intro _ st0 H0)) as (_ & _ & Hall).
      destruct (passes_counters _ _ H0) as (Hl & _).
      intros i Hi'. destruct (Nat.eq_dec i n) as [->|Hne]; [|apply Hall; lia].
      destruct (iteration_cases st0)
        as [(ex & _ & _ & Hi2)|[(_ & _ & st' & Hi2 & _)|[(_ & _ & _ & st' & Hi2 & _)|
            (Hobs & _)]]]; rewrite ?Hi2 in Hi; try discriminate.
      now rewrite Hl in Hobs.
    + intros (Hn & Hf & Hall). cbn [failures] in Hf.
      destruct (proj2 IH) as (st0 & H0).
      { repeat split; try lia. intros i Hi. apply Hall. lia. }
      destruct (passes_counters _ _ H0) as (Hl & Hp & He & _).
      cbn. rewrite H0.
      destruct (iteration_cases st0)
        as [(ex & Hg & Hlt & _)|[(Hobs & _)|[(_ & _ & Hlt & _)|
            (_ & _ & _ & st' & Hi & _)]]].
      * exfalso. rewrite Hl in Hg. unfold rejected in Hf. rewrite Hg in Hf. lia.
      * exfalso. rewrite Hl in Hobs. apply (Hall n); [lia|assumption].
      * exfalso. lia.
      * rewrite Hi. eauto.
Qed.

(** Fuel spent on passes that do not end the run. *)
Lemma awaitLoop_passes n st fuel :
  passes n = Some st -> awaitLoop (n + fuel) start = awaitLoop fuel st.
Proof.
  revert st fuel. induction n as [|n IH]; intros st fuel H.
  - cbn in H. injection H as <-. reflexivity.
  - destruct (passes_earlier _ _ H) as (st0 & H0 & Hi).
    replace (S n + fuel) with (n + S fuel) by lia.
    rewrite (IH _ _ H0). cbn. now rewrite Hi.
Qed.

(** A pass that ends the run ends it whatever fuel is left. *)
Lemma await_ends_at n st stop fuel :
  passes n = Some st -> iteration st = inl stop -> n < fuel ->
  awaitRequiredOperationStatus oracle requiredStatus fuel = Some stop.
Proof.
  intros H Hi Hlt. unfold awaitRequiredOperationStatus.
  replace fuel with (n + S (fuel - S n)) by lia.
  rewrite (awaitLoop_passes _ _ _ H). cbn. now rewrite Hi.
Qed.

(** Every result of the loop comes from a pass that ended the run. *)
Lemma awaitLoop_inv fuel : forall n st stop,
  passes n = Some st -> awaitLoop fuel st = Some stop ->
  exists m st1, passes m = Some st1 /\ iteration st1 = inl stop /\ m < n + fuel.
Proof.
  induction fuel as [|fuel IH]; intros n st stop H Hr; [discriminate|].
  cbn in Hr. destruct (iteration st) as [stop'|st'] eqn:E.
  - injection Hr as <-. exists n, st. repeat split; auto; lia.
  - destruct (IH (S n) st' stop) as (m & st1 & H1 & H2 & H3); auto.
    + cbn. now rewrite H, E.
    + exists m, st1. repeat split; auto; lia.
Qed.

Lemma await_inv fuel stop :
  awaitRequiredOperationStatus oracle requiredStatus fuel = Some stop ->
  exists m st1, passes m = Some st1 /\ iteration st1 = inl stop /\ m < fuel.
Proof.
  intros H. apply (awaitLoop_inv fuel 0 start stop eq_refl H).
Qed.

(** The loop always ends: 1001 passes are enough, because every pass that
    does not end the run adds one to the pending counter. *)
Lemma awaitLoop_total fuel : forall st,
  pendingCounter st <= 1000 -> 1001 <= pendingCounter st + fuel ->
  exists stop, awaitLoop fuel st = Some stop.
Proof.
  induction fuel as [|fuel IH]; intros st Hp Hf; [lia|].
  cbn. destruct (iteration_cases st)
    as [(ex & _ & _ & Hi)|[(_ & _ & st' & Hi & _)|[(_ & _ & _ & st' & Hi & _)|
        (_ & _ & Hle & st' & Hi & _ & Hp' & _)]]]; rewrite Hi; eauto.
  apply IH; lia.
Qed.

Lemma await_total fuel :
  1001 <= fuel ->
  exists stop, awaitRequiredOperationStatus oracle requiredStatus fuel = Some stop.
Proof.
  intros H. apply awaitLoop_total; cbn; lia.
Qed.

(** More fuel does not change a result. *)
Lemma await_fuel_irrelevant fuel fuel' stop :
  awaitRequiredOperationStatus oracle requiredStatus fuel = Some stop ->
  fuel <= fuel' ->
  awaitRequiredOperationStatus oracle requiredStatus fuel' = Some stop.
Proof.
  intros H Hle. destruct (await_inv _ _ H) as (m & st1 & H1 & H2 & H3).
  apply (await_ends_at m st1); auto. lia.
Qed.

(** Each pass that does not end the run is either a resolved lookup with
    another status or a rejected lookup. *)
Lemma passes_split n :
  (forall i, i < n -> observed (oracle i) <> requiredStatus) ->
  n = pendingSuccesses n + failures oracle n.
Proof.
  induction n as [|n IH]; intros Hall; [reflexivity|].
  cbn [Tracker.pendingSuccesses failures].
  assert (Hn : observed (oracle n) <> requiredStatus) by (apply Hall; lia).
  rewrite (status_eqb_neq _ _ Hn).
  assert (IH' : n = pendingSuccesses n + failures oracle n)
    by (apply IH; intros i Hi; apply Hall; lia).
  destruct (rejected (oracle n)); lia.
Qed.

End Run.

Lemma never_required_below oracle requiredStatus n :
  forallb (fun i => negb (status_eqb (observed (oracle i)) requiredStatus)) (seq 0 n) = true ->
  forall i, i < n -> observed (oracle i) <> requiredStatus.
Proof.
  intros H i Hi Heq.
  pose proof (forallb_below _ _ H i Hi) as Hb. cbn in Hb.
  rewrite Heq, status_eqb_refl in Hb. discriminate.
Qed.

(** C1: a lookup that resolves is classified in strict priority order: a
    missing or empty record list is NOT_FOUND; otherwise the first record
    decides: final gives FINAL, else a non-empty list of containing blocks
    gives INCLUDED_PENDING, else presence in the pool gives
    AWAITING_INCLUSION, else INCONSISTENT. *)
Theorem getOperationStatus_priority :
  getOperationStatus (Resolves None) = inr NOT_FOUND /\
  getOperationStatus (Resolves (Some [])) = inr NOT_FOUND /\
  (forall blocks pool rest,
     getOperationStatus
       (Resolves (Some ({| is_final := true; in_blocks := blocks; in_pool := pool |} :: rest)))
     = inr FINAL) /\
  (forall b blocks pool rest,
     getOperationStatus
       (Resolves (Some ({| is_final := false; in_blocks := b :: blocks; in_pool := pool |} :: rest)))
     = inr INCLUDED_PENDING) /\
  (forall rest,
     getOperationStatus
       (Resolves (Some ({| is_final := false; in_blocks := []; in_pool := true |} :: rest)))
     = inr AWAITING_INCLUSION) /\
  (forall rest,
     getOperationStatus
       (Resolves (Some ({| is_final := false; in_blocks := []; in_pool := false |} :: rest)))
     = inr INCONSISTENT).
Proof.
  repeat split; intros; reflexivity.
Qed.

(** A run ends by rethrowing only on its 101st rejected lookup, counted
    over the whole run. *)
Lemma rethrown_inv oracle requiredStatus fuel st' ex :
  awaitRequiredOperationStatus oracle requiredStatus fuel = Some (st', Rethrown ex) ->
  exists n, lookups st' = S n /\ failures oracle (S n) = 101 /\
            getOperationStatus (oracle n) = inl ex.
Proof.
  intros H. destruct (await_inv _ _ _ _ H) as (m & st1 & H1 & H2 & _).
  destruct (passes_counters _ _ _ _ H1) as (Hl & _ & He & _ & Hf).
  destruct (iteration_cases oracle requiredStatus st1)
    as [(ex' & Hg & Hlt & Hi)|[(_ & _ & st2 & Hi & _)|[(_ & _ & _ & st2 & Hi & _)|
        (_ & _ & _ & st2 & Hi & _)]]]; rewrite Hi in H2; try discriminate.
  injection H2 as <- <-. exists m. rewrite Hl in Hg. cbn [failures lookups incrErr lookedUp].
  unfold rejected. rewrite Hg. repeat split; auto; lia.
Qed.

(** C2, as the code has it: the error counter is the number of rejected
    lookups of the whole run (a resolved lookup does not set it back), and
    the 101st rejected lookup ends the run by rethrowing its error, with no
    further lookup. *)
Theorem failed_lookups_accumulate oracle requiredStatus n st ex fuel :
  passes oracle requiredStatus n = Some st ->
  failures oracle n = 100 ->
  oracle n = Rejects ex ->
  n < fuel ->
  errCounter st = failures oracle n /\
  exists st',
    awaitRequiredOperationStatus oracle requiredStatus fuel = Some (st', Rethrown ex) /\
    lookups st' = S n /\ errCounter st' = 101.
Proof.
  intros Hp Hf Ho Hfuel.
  destruct (passes_counters _ _ _ _ Hp) as (Hl & _ & He & _).
  split; [exact He|].
  destruct (iteration_cases oracle requiredStatus st)
    as [(ex' & Hg & _ & Hi)|[(_ & Hr & _)|[(_ & Hr & _)|(_ & Hr & _)]]].
  - rewrite Hl, Ho in Hg. injection Hg as <-.
    eexists. split; [apply (await_ends_at _ _ n st); eauto|].
    cbn. split; lia.
  - exfalso. rewrite Hl in Hr. unfold rejected in Hr. rewrite Ho in Hr.
    specialize (Hr eq_refl). lia.
  - exfalso. rewrite Hl in Hr. unfold rejected in Hr. rewrite Ho in Hr.
    specialize (Hr eq_refl). lia.
  - exfalso. rewrite Hl in Hr. unfold rejected in Hr. rewrite Ho in Hr.
    specialize (Hr eq_refl). lia.
Qed.

(** The run against [flakyNode]: 100 rejected lookups around one resolved
    lookup, then the 101st rejection at lookup 101. *)
Lemma failed_lookups_accumulate_witness :
  100 = failures flakyNode 101 /\
  exists st',
    awaitRequiredOperationStatus flakyNode FINAL 1001 = Some (st', Rethrown "unreachable") /\
    lookups st' = 102 /\ errCounter st' = 101.
Proof.
  apply (failed_lookups_accumulate flakyNode FINAL 101
           {| errCounter := 100; pendingCounter := 101; lookups := 101; waits := 201 |}
           "unreachable" 1001).
  - vm_compute. reflexivity.
  - vm_compute. reflexivity.
  - reflexivity.
  - lia.
Defined.

(** C2 as stated fails: against [flakyNode] the run is aborted by a
    rethrow at its 102nd lookup although no more than 51 lookups in a row
    were rejected. *)
Lemma consecutive_failures_counterexample :
  exists st',
    awaitRequiredOperationStatus flakyNode FINAL 1001 = Some (st', Rethrown "unreachable") /\
    lookups st' = 102 /\
    consecutiveFailures flakyNode (lookups st') = 51 /\
    forall n, n <= lookups st' -> consecutiveFailures flakyNode n <= 51.
Proof.
  eexists. split; [vm_compute; reflexivity|].
  split; [reflexivity|]. split; [vm_compute; reflexivity|].
  cbn [lookups]. intros n Hn.
  apply Nat.leb_le.
  apply (forallb_below (fun n => Nat.leb (consecutiveFailures flakyNode n) 51) 103); [|lia].
  vm_compute. reflexivity.
Qed.

(** A run gives up only after 1001 passes, none of which saw the required
    status. *)
Lemma gaveUp_inv oracle requiredStatus fuel st' :
  awaitRequiredOperationStatus oracle requiredStatus fuel = Some (st', GaveUp) ->
  lookups st' = 1001 /\ pendingCounter st' = 1001 /\
  forall i, i < 1001 -> observed (oracle i) <> requiredStatus.
Proof.
  intros H. destruct (await_inv _ _ _ _ H) as (m & st1 & H1 & H2 & _).
  destruct (passes_counters _ _ _ _ H1) as (Hl & Hp & _ & Hm & _).
  destruct (proj1 (passes_iff oracle requiredStatus m) (ex_intro _ st1 H1)) as (_ & _ & Hall).
  destruct (iteration_cases oracle requiredStatus st1)
    as [(ex' & _ & _ & Hi)|[(_ & _ & st2 & Hi & _)|[(Hobs & _ & Hlt & st2 & Hi & Hl2 & Hp2)|
        (_ & _ & _ & st2 & Hi & _)]]]; rewrite Hi in H2; try discriminate.
  injection H2 as <-.
  assert (Hm1 : m = 1000) by lia. rewrite Hm1 in *.
  repeat split; try lia.
  intros i Hi'. destruct (Nat.eq_dec i 1000) as [->|]; [|apply Hall; lia].
  now rewrite Hl in Hobs.
Qed.

(** C3, as the code has it: the pending counter counts every pass that
    ends without the required status, the passes whose lookup was rejected
    (their status stays NOT_FOUND) as well as the resolved lookups with
    another status; the 1001st such pass ends the run with the timeout
    error. *)
Theorem pending_counter_counts_every_pass oracle requiredStatus fuel :
  (forall i, i < 1001 -> observed (oracle i) <> requiredStatus) ->
  failures oracle 1001 <= 100 ->
  1001 <= fuel ->
  (forall n st, passes oracle requiredStatus n = Some st ->
     pendingCounter st = n /\
     n = pendingSuccesses oracle requiredStatus n + failures oracle n) /\
  exists st',
    awaitRequiredOperationStatus oracle requiredStatus fuel = Some (st', GaveUp) /\
    lookups st' = 1001 /\
    pendingCounter st' =
      pendingSuccesses oracle requiredStatus 1001 + failures oracle 1001.
Proof.
  intros Hall Hf Hfuel.
  change (failures oracle 1001)
    with (failures oracle 1000 + (if rejected (oracle 1000) then 1 else 0)) in Hf.
  split.
  - intros n st Hp. destruct (passes_counters _ _ _ _ Hp) as (_ & Hpc & _ & Hn & _).
    split; [exact Hpc|]. apply passes_split. intros i Hi. apply Hall. lia.
  - destruct (proj2 (passes_iff oracle requiredStatus 1000)) as (st & Hp).
    { split; [lia|]. split; [lia|]. intros i Hi. apply Hall. lia. }
    destruct (passes_counters _ _ _ _ Hp) as (Hl & Hpc & He & _).
    destruct (iteration_cases oracle requiredStatus st)
      as [(ex' & Hg & Hlt & _)|[(Hobs & _)|[(_ & _ & _ & st2 & Hi & Hl2 & Hp2)|
          (_ & _ & Hle & _)]]].
    + exfalso. rewrite Hl in Hg. unfold rejected in Hf.
      rewrite Hg in Hf. lia.
    + exfalso. rewrite Hl in Hobs. apply (Hall 1000); [lia|assumption].
    + exists st2. split; [apply (await_ends_at _ _ 1000 st); auto; lia|].
      split; [lia|]. rewrite Hp2, Hpc. apply (passes_split oracle requiredStatus 1001 Hall).
    + exfalso. lia.
Qed.

(** The run against [slowNode]: one rejected lookup and 1000 resolved
    lookups with another status. *)
Lemma pending_counter_counts_every_pass_witness :
  exists st',
    awaitRequiredOperationStatus slowNode FINAL 1001 = Some (st', GaveUp) /\
    lookups st' = 1001 /\
    pendingCounter st' = pendingSuccesses slowNode FINAL 1001 + failures slowNode 1001.
Proof.
  apply (pending_counter_counts_every_pass slowNode FINAL 1001).
  - apply never_required_below. vm_compute. reflexivity.
  - vm_compute. lia.
  - lia.
Defined.

(** C3 as stated fails: against [slowNode] the run gives up after 1001
    lookups, of which only 1000 resolved with a status other than the
    required one; the rejected first lookup was counted too. *)
Lemma pending_budget_counterexample :
  exists st',
    awaitRequiredOperationStatus slowNode FINAL 1001 = Some (st', GaveUp) /\
    lookups st' = 1001 /\
    rejected (slowNode 0) = true /\
    pendingSuccesses slowNode FINAL (lookups st') = 1000 /\
    ~ 1000 < pendingSuccesses slowNode FINAL (lookups st').
Proof.
  eexists. split; [vm_compute; reflexivity|].
  split; [reflexivity|]. split; [reflexivity|].
  assert (E : pendingSuccesses slowNode FINAL 1001 = 1000) by (vm_compute; reflexivity).
  cbn [lookups]. rewrite E. split; [reflexivity|lia].
Qed.

(** With NOT_FOUND required, no pass that lets the run go on had a rejected
    lookup. *)
Lemma not_found_run_has_no_failure oracle n st :
  passes oracle NOT_FOUND n = Some st -> errCounter st = 0.
Proof.
  intros Hp. destruct (passes_counters _ _ _ _ Hp) as (_ & _ & He & _).
  rewrite He.
  destruct (proj1 (passes_iff oracle NOT_FOUND n) (ex_intro _ st Hp)) as (_ & _ & Hall).
  clear Hp He. induction n as [|n IH]; [reflexivity|].
  cbn [failures]. rewrite IH by (intros i Hi; apply Hall; lia).
  specialize (Hall n (Nat.lt_succ_diag_r n)).
  unfold observed, rejected. unfold observed in Hall.
  destruct (getOperationStatus (oracle n)); [contradiction|reflexivity].
Qed.

(** C4: when NOT_FOUND is the required status and the lookup of a pass is
    rejected, that pass returns NOT_FOUND: the status keeps its initial
    value through the catch block and the comparison with the required
    status still runs. *)
Theorem rejected_lookup_returns_not_found oracle n st ex fuel :
  passes oracle NOT_FOUND n = Some st ->
  oracle n = Rejects ex ->
  n < fuel ->
  exists st',
    awaitRequiredOperationStatus oracle NOT_FOUND fuel = Some (st', Returned NOT_FOUND) /\
    lookups st' = S n.
Proof.
  intros Hp Ho Hfuel.
  pose proof (not_found_run_has_no_failure _ _ _ Hp) as He.
  destruct (passes_counters _ _ _ _ Hp) as (Hl & _).
  destruct (iteration_cases oracle NOT_FOUND st)
    as [(ex' & _ & Hlt & _)|[(_ & _ & st2 & Hi & Hl2)|[(Hobs & _)|(Hobs & _)]]].
  - exfalso. lia.
  - exists st2. split; [apply (await_ends_at _ _ n st); auto|lia].
  - exfalso. apply Hobs. rewrite Hl. unfold observed. now rewrite Ho.
  - exfalso. apply Hobs. rewrite Hl. unfold observed. now rewrite Ho.
Qed.

(** The run against [droppingNode]: three lookups find the operation in
    the pool, the fourth is rejected and the run returns NOT_FOUND. *)
Lemma rejected_lookup_returns_not_found_witness :
  exists st',
    awaitRequiredOperationStatus droppingNode NOT_FOUND 1001 = Some (st', Returned NOT_FOUND) /\
    lookups st' = 4.
Proof.
  apply (rejected_lookup_returns_not_found droppingNode 3
           {| errCounter := 0; pendingCounter := 3; lookups := 3; waits := 3 |}
           "unreachable" 1001).
  - vm_compute. reflexivity.
  - reflexivity.
  - lia.
Defined.

Lemma failures_all_rejected oracle n :
  (forall i, i < n -> rejected (oracle i) = true) -> failures oracle n = n.
Proof.
  induction n as [|n IH]; intros Hall; [reflexivity|].
  cbn [failures]. rewrite IH by (intros i Hi; apply Hall; lia).
  rewrite (Hall n) by lia. lia.
Qed.

(** 101 rejected lookups in a row, for a required status other than
    NOT_FOUND: the run rethrows at the 101st lookup and makes no 102nd. *)
Lemma hundred_and_one_failures_abort oracle requiredStatus ex fuel :
  requiredStatus <> NOT_FOUND ->
  (forall i, i < 100 -> rejected (oracle i) = true) ->
  oracle 100 = Rejects ex ->
  100 < fuel ->
  exists st',
    awaitRequiredOperationStatus oracle requiredStatus fuel = Some (st', Rethrown ex) /\
    lookups st' = 101.
Proof.
  intros Hreq Hall Ho Hfuel.
  pose proof (failures_all_rejected oracle 100 Hall) as Hf.
  destruct (proj2 (passes_iff oracle requiredStatus 100)) as (st & Hp).
  { split; [lia|]. split; [lia|]. intros i Hi Hobs. apply Hreq. rewrite <- Hobs.
    specialize (Hall i Hi). unfold rejected in Hall. unfold observed.
    destruct (getOperationStatus (oracle i)); [reflexivity|discriminate]. }
  destruct (passes_counters _ _ _ _ Hp) as (Hl & _ & He & _).
  assert (Hrej : rejected (oracle (lookups st)) = true)
    by (rewrite Hl; unfold rejected; now rewrite Ho).
  destruct (iteration_cases oracle requiredStatus st)
    as [(ex' & Hg & _ & Hi)|[(_ & Hr & _)|[(_ & Hr & _)|(_ & Hr & _)]]];
    try (specialize (Hr Hrej); lia).
  rewrite Hl, Ho in Hg. injection Hg as <-.
  eexists. split; [apply (await_ends_at _ _ 100 st); eauto|]. cbn. lia.
Qed.

(** A first lookup that already shows the required status returns it at
    once: one lookup, both counters at 0, no wait. *)
Lemma first_lookup_returns oracle requiredStatus fuel :
  getOperationStatus (oracle 0) = inr requiredStatus ->
  0 < fuel ->
  awaitRequiredOperationStatus oracle requiredStatus fuel =
    Some ({| errCounter := 0; pendingCounter := 0; lookups := 1; waits := 0 |},
          Returned requiredStatus).
Proof.
  intros Ho Hfuel. destruct fuel as [|fuel]; [lia|].
  unfold awaitRequiredOperationStatus. cbn [awaitLoop].
  unfold iteration, tryLookup. cbn [lookups start]. rewrite Ho, status_eqb_refl.
  reflexivity.
Qed.

End TrackerFacts.

Module WalletFacts.
Import Wallet.

Section Facts.

Variable B : Backend.

Lemma getWalletAccountByAddress_run addr wc :
  getWalletAccountByAddress addr wc = (findByAddress (wallet wc) addr, wc).
Proof. reflexivity. Qed.

(** What [find] returns is a member, and its address matches the argument
    up to case. *)
Lemma findByAddress_some w addr m :
  findByAddress w addr = inr (Some m) ->
  In m w /\
  exists x y, address m = Some x /\ addr = Some y /\ toLowerCase x = toLowerCase y.
Proof.
  induction w as [|a rest IH]; cbn; [discriminate|].
  destruct (address a) as [x|] eqn:Ea; [|discriminate].
  destruct addr as [y|]; [|discriminate].
  destruct (String.eqb_spec (toLowerCase x) (toLowerCase y)) as [Heq|Hne].
  - intros H. injection H as <-. split; [now left|]. eauto.
  - intros H. destruct (IH H) as (Hin & Hx). split; [now right|assumption].
Qed.

(** When [find] returns nothing, no member's address matches. *)
Lemma findByAddress_none w y :
  findByAddress w (Some y) = inr None ->
  forall m x, In m w -> address m = Some x -> toLowerCase x <> toLowerCase y.
Proof.
  induction w as [|a rest IH]; cbn; [intros _ m x []|].
  destruct (address a) as [xa|] eqn:Ea; [|discriminate].
  destruct (String.eqb_spec (toLowerCase xa) (toLowerCase y)) as [Heq|Hne]; [discriminate|].
  intros H m x [<-|Hin] Hm.
  - congruence.
  - eauto.
Qed.

Lemma reconcile_address account created :
  reconcile B account = inr created -> exists x, address created = Some x.
Proof.
  unfold reconcile.
  destruct (andb _ _); [discriminate|].
  destruct (resolvePrivateKey B account); [discriminate|].
  destruct (decode B _); [discriminate|].
  destruct (lib (getPublicKey B _)); [discriminate|].
  destruct (andb _ _); [discriminate|].
  destruct (andb _ _); [discriminate|].
  intros H. injection H as <-. cbn. eauto.
Qed.

Lemma accountOfPrivateKey_address k created :
  accountOfPrivateKey B k = inr created -> exists x, address created = Some x.
Proof.
  unfold accountOfPrivateKey.
  destruct (lib (base58Decode B k)); [discriminate|].
  destruct (lib (getPublicKey B _)); [discriminate|].
  intros H. injection H as <-. cbn. eauto.
Qed.

(** The loops read the wallet and never write it. *)
Lemma addAccountsLoop_state accounts : forall acc wc,
  snd (addAccountsLoop B accounts acc wc) = wc.
Proof.
  induction accounts as [|account rest IH]; intros acc wc; [reflexivity|].
  cbn [addAccountsLoop]. unfold bind at 1. unfold lift at 1.
  destruct (reconcile B account) as [e|created]; [reflexivity|].
  unfold bind at 1. rewrite getWalletAccountByAddress_run.
  destruct (findByAddress (wallet wc) (address created)) as [e|[m|]]; [reflexivity| |]; apply IH.
Qed.

Lemma addPrivateKeysLoop_state keys : forall acc wc,
  snd (addPrivateKeysLoop B keys acc wc) = wc.
Proof.
  induction keys as [|k rest IH]; intros acc wc; [reflexivity|].
  cbn [addPrivateKeysLoop]. unfold bind at 1. unfold lift at 1.
  destruct (accountOfPrivateKey B k) as [e|created]; [reflexivity|].
  unfold bind at 1. rewrite getWalletAccountByAddress_run.
  destruct (findByAddress (wallet wc) (address created)) as [e|[m|]]; [reflexivity| |]; apply IH.
Qed.

(** What the loop of [addAccountsToWallet] collects: after the accounts it
    started with, in input order, the reconciled entries whose address no
    member of the wallet has. *)
Lemma addAccountsLoop_result accounts : forall acc wc added,
  fst (addAccountsLoop B accounts acc wc) = inr added ->
  exists new,
    added = acc ++ new /\
    forall a, In a new ->
      (exists account, In account accounts /\ reconcile B account = inr a) /\
      findByAddress (wallet wc) (address a) = inr None.
Proof.
  induction accounts as [|account rest IH]; intros acc wc added.
  - cbn. intros H. injection H as <-. exists []. split; [now rewrite app_nil_r|intros a []].
  - cbn [addAccountsLoop]. unfold bind at 1. unfold lift at 1.
    destruct (reconcile B account) as [e|created] eqn:Er; [discriminate|].
    unfold bind at 1. rewrite getWalletAccountByAddress_run.
    destruct (findByAddress (wallet wc) (address created)) as [e|[m|]] eqn:Ef; [discriminate| |].
    + intros H. destruct (IH _ _ _ H) as (new & -> & Hnew).
      exists new. split; [reflexivity|]. intros a Ha.
      destruct (Hnew a Ha) as ((account' & Hin & Hr) & Hf).
      split; [exists account'; split; [now right|assumption]|assumption].
    + intros H. destruct (IH _ _ _ H) as (new & -> & Hnew).
      exists (created :: new). split; [now rewrite <- app_assoc|].
      intros a [<-|Ha].
      * split; [exists account; split; [now left|assumption]|assumption].
      * destruct (Hnew a Ha) as ((account' & Hin & Hr) & Hf).
        split; [exists account'; split; [now right|assumption]|assumption].
Qed.

Lemma addPrivateKeysLoop_result keys : forall acc wc added,
  fst (addPrivateKeysLoop B keys acc wc) = inr added ->
  exists new,
    added = acc ++ new /\
    forall a, In a new ->
      (exists k, In k keys /\ accountOfPrivateKey B k = inr a) /\
      findByAddress (wallet wc) (address a) = inr None.
Proof.
  induction keys as [|k rest IH]; intros acc wc added.
  - cbn. intros H. injection H as <-. exists []. split; [now rewrite app_nil_r|intros a []].
  - cbn [addPrivateKeysLoop]. unfold bind at 1. unfold lift at 1.
    destruct (accountOfPrivateKey B k) as [e|created] eqn:Er; [discriminate|].
    unfold bind at 1. rewrite getWalletAccountByAddress_run.
    destruct (findByAddress (wallet wc) (address created)) as [e|[m|]] eqn:Ef; [discriminate| |].
    + intros H. destruct (IH _ _ _ H) as (new & -> & Hnew).
      exists new. split; [reflexivity|]. intros a Ha.
      destruct (Hnew a Ha) as ((k' & Hin & Hr) & Hf).
      split; [exists k'; split; [now right|assumption]|assumption].
    + intros H. destruct (IH _ _ _ H) as (new & -> & Hnew).
      exists (created :: new). split; [now rewrite <- app_assoc|].
      intros a [<-|Ha].
      * split; [exists k; split; [now left|assumption]|assumption].
      * destruct (Hnew a Ha) as ((k' & Hin & Hr) & Hf).
        split; [exists k'; split; [now right|assumption]|assumption].
Qed.

(** An entry that does not reconcile makes the loop throw. *)
Lemma addAccountsLoop_throws accounts bad e : forall acc wc,
  In bad accounts -> reconcile B bad = inl e ->
  exists e', fst (addAccountsLoop B accounts acc wc) = inl e'.
Proof.
  induction accounts as [|account rest IH]; intros acc wc Hin Hbad; [destruct Hin|].
  cbn [addAccountsLoop]. unfold bind at 1. unfold lift at 1.
  destruct (reconcile B account) as [e0|created] eqn:Er; [eexists; reflexivity|].
  destruct Hin as [->|Hin]; [congruence|].
  unfold bind at 1. rewrite getWalletAccountByAddress_run.
  destruct (findByAddress (wallet wc) (address created)) as [e1|[m|]];
    [eexists; reflexivity| |]; apply IH; assumption.
Qed.

(** The two adding methods: on a throw the state is as before; on a return
    the returned accounts are appended to the wallet.  The base account is
    not touched. *)
Lemma addAccountsToWallet_run accounts wc :
  (exists e, addAccountsToWallet B accounts wc = (inl e, wc)) \/
  (exists added,
     addAccountsToWallet B accounts wc =
       (inr added, {| wallet := wallet wc ++ added; baseAccount := baseAccount wc |}) /\
     List.length accounts <= MAX_WALLET_ACCOUNTS /\
     fst (addAccountsLoop B accounts [] wc) = inr added).
Proof.
  unfold addAccountsToWallet.
  destruct (Nat.ltb_spec MAX_WALLET_ACCOUNTS (List.length accounts)) as [Hgt|Hle].
  - left. eexists. reflexivity.
  - unfold bind.
    pose proof (addAccountsLoop_state accounts [] wc) as Hs.
    destruct (addAccountsLoop B accounts [] wc) as [[e|added] wc1]; cbn in Hs; subst wc1.
    + left. eexists. reflexivity.
    + right. exists added. split; [reflexivity|]. split; [assumption|reflexivity].
Qed.

Lemma addPrivateKeysToWallet_run keys wc :
  (exists e, addPrivateKeysToWallet B keys wc = (inl e, wc)) \/
  (exists added,
     addPrivateKeysToWallet B keys wc =
       (inr added, {| wallet := wallet wc ++ added; baseAccount := baseAccount wc |}) /\
     List.length keys <= MAX_WALLET_ACCOUNTS /\
     fst (addPrivateKeysLoop B keys [] wc) = inr added).
Proof.
  unfold addPrivateKeysToWallet.
  destruct (Nat.ltb_spec MAX_WALLET_ACCOUNTS (List.length keys)) as [Hgt|Hle].
  - left. eexists. reflexivity.
  - unfold bind.
    pose proof (addPrivateKeysLoop_state keys [] wc) as Hs.
    destruct (addPrivateKeysLoop B keys [] wc) as [[e|added] wc1]; cbn in Hs; subst wc1.
    + left. eexists. reflexivity.
    + right. exists added. split; [reflexivity|]. split; [assumption|reflexivity].
Qed.

End Facts.

Lemma setBaseAccount_run B account wc :
  setBaseAccount B account wc =
  match findByAddress (wallet wc) (address account) with
  | inl e => (inl e, wc)
  | inr (Some _) => (inr tt, {| wallet := wallet wc; baseAccount := Some account |})
  | inr None =>
      match addAccountsToWallet B [account] wc with
      | (inl e, wc1) => (inl e, wc1)
      | (inr added, wc1) =>
          (inr tt, {| wallet := wallet wc1; baseAccount := nth_error added 0 |})
      end
  end.
Proof.
  unfold setBaseAccount, bind at 1. rewrite getWalletAccountByAddress_run.
  destruct (findByAddress (wallet wc) (address account)) as [e|[m|]]; reflexivity.
Qed.

Lemma sameAddress_refl a x : address a = Some x -> sameAddress a a.
Proof. intros H. exists x, x. auto. Qed.

(** An account returned by one of the adding methods has the address of
    no account that was in the wallet before the call. *)
Lemma addPrivateKeysToWallet_skips_members B keys wc added wc' :
  addPrivateKeysToWallet B keys wc = (inr added, wc') ->
  wallet wc' = wallet wc ++ added /\
  forall a m, In a added -> In m (wallet wc) -> ~ sameAddress m a.
Proof.
  intros H.
  destruct (addPrivateKeysToWallet_run B keys wc) as [(e & He)|(added' & Hr & _ & Hloop)];
    rewrite H in *; [discriminate|].
  injection Hr as -> ->. split; [reflexivity|].
  destruct (addPrivateKeysLoop_result B _ _ _ _ Hloop) as (new & Hnew & Hall).
  cbn in Hnew. subst new.
  intros a m Ha Hm (x & y & Hx & Hy & Hxy).
  destruct (Hall a Ha) as (_ & Hf). rewrite Hy in Hf.
  exact (findByAddress_none _ _ Hf m x Hm Hx Hxy).
Qed.

(** The operations that keep the members keep the weaker invariant. *)
Lemma runOp_keeps_base_address B wc op :
  keepsMembers op = true -> baseAddressInWallet wc -> baseAddressInWallet (runOp B wc op).
Proof.
  intros Hop Hinv. destruct op as [account|keys|accounts|addresses|]; try discriminate; cbn [runOp].
  - rewrite setBaseAccount_run.
    destruct (findByAddress (wallet wc) (address account)) as [e|[m|]] eqn:Ef; [exact Hinv| |].
    + destruct (findByAddress_some _ _ _ Ef) as (Hin & Hsame).
      cbn. exists m. split; assumption.
    + destruct (addAccountsToWallet_run B [account] wc) as [(e & He)|(added & Hr & _ & Hloop)].
      * rewrite He. exact Hinv.
      * rewrite Hr. cbn. unfold baseAddressInWallet. cbn.
        destruct added as [|b rest]; cbn; [exact I|].
        exists b. split; [apply in_or_app; right; now left|].
        destruct (addAccountsLoop_result B _ _ _ _ Hloop) as (new & Hnew & Hall).
        cbn in Hnew. subst new.
        destruct (Hall b (or_introl eq_refl)) as ((acc0 & _ & Hrec) & _).
        destruct (reconcile_address B _ _ Hrec) as (x & Hx).
        exact (sameAddress_refl _ _ Hx).
  - destruct (addPrivateKeysToWallet_run B keys wc) as [(e & He)|(added & Hr & _)].
    + rewrite He. exact Hinv.
    + rewrite Hr. unfold baseAddressInWallet in *. cbn.
      destruct (baseAccount wc) as [b|]; [|exact I].
      destruct Hinv as (m & Hin & Hs). exists m. split; [apply in_or_app; now left|assumption].
  - destruct (addAccountsToWallet_run B accounts wc) as [(e & He)|(added & Hr & _)].
    + rewrite He. exact Hinv.
    + rewrite Hr. unfold baseAddressInWallet in *. cbn.
      destruct (baseAccount wc) as [b|]; [|exact I].
      destruct Hinv as (m & Hin & Hs). exists m. split; [apply in_or_app; now left|assumption].
Qed.

Lemma runOps_keeps_base_address B ops : forall wc,
  forallb keepsMembers ops = true -> baseAddressInWallet wc ->
  baseAddressInWallet (runOps B wc ops).
Proof.
  induction ops as [|op rest IH]; intros wc Hops Hinv; [exact Hinv|].
  cbn in Hops. apply andb_true_iff in Hops. destruct Hops as (Hop & Hrest).
  cbn. apply IH; [assumption|]. now apply runOp_keeps_base_address.
Qed.

(** C5, at the input on which the code departs from it: the same private
    key twice in one call, on an empty wallet, makes two members with the
    same address; the lookup of line 121 reads the wallet, which does not
    hold the accounts of the current call yet. *)
Theorem duplicate_private_key_in_one_call B k sk pk :
  base58Decode B k = inr sk ->
  getPublicKey B sk = inr pk ->
  exists a,
    addPrivateKeysToWallet B [k; k] emptyClient =
      (inr [a; a], {| wallet := [a; a]; baseAccount := None |}) /\
    sameAddress a a /\
    ~ uniqueAddresses [a; a].
Proof.
  intros Hd Hp.
  exists {| address := Some (deriveAddress B pk); publicKey := Some (base58Encode B pk);
            privateKey := Some k; randomEntropy := None |}.
  split; [|split].
  - unfold addPrivateKeysToWallet. cbn [List.length Nat.ltb Nat.leb MAX_WALLET_ACCOUNTS].
    unfold bind, addPrivateKeysLoop, bind, lift, accountOfPrivateKey.
    rewrite Hd. cbn [lib]. rewrite Hp. reflexivity.
  - eapply sameAddress_refl. reflexivity.
  - intros Hu.
    assert (H01 : 0 = 1); [|discriminate].
    eapply (Hu 0 1); try reflexivity. eapply sameAddress_refl. reflexivity.
Qed.

Lemma duplicate_private_key_in_one_call_witness :
  exists a,
    addPrivateKeysToWallet Toy.backend ["k1"; "k1"] emptyClient =
      (inr [a; a], {| wallet := [a; a]; baseAccount := None |}) /\
    sameAddress a a /\
    ~ uniqueAddresses [a; a].
Proof.
  apply (duplicate_private_key_in_one_call Toy.backend "k1"
           (list_byte_of_string "k1") (list_byte_of_string "k1k1")).
  - reflexivity.
  - reflexivity.
Defined.

(** The account that [setBaseAccount] has [addAccountsToWallet] store
    when neither the address passed in nor the derived address is in the
    wallet. *)
Lemma setBaseAccount_stores B account created wc :
  findByAddress (wallet wc) (address account) = inr None ->
  reconcile B account = inr created ->
  findByAddress (wallet wc) (address created) = inr None ->
  setBaseAccount B account wc =
    (inr tt, {| wallet := wallet wc ++ [created]; baseAccount := Some created |}).
Proof.
  intros Hnone Hrec Hnone'. rewrite setBaseAccount_run, Hnone.
  unfold addAccountsToWallet. cbn [List.length Nat.ltb Nat.leb MAX_WALLET_ACCOUNTS].
  unfold addAccountsLoop, bind, lift. rewrite Hrec.
  rewrite getWalletAccountByAddress_run, Hnone'. reflexivity.
Qed.

(** An account passed without a usable address (the empty string) whose
    key is the key of a member: the lookup by the address passed in finds
    nothing, [addAccountsToWallet] adds nothing because the derived
    address is present, and the base account becomes the missing first
    element of an empty list. *)
Lemma setBaseAccount_without_address_of_member B account created m wc :
  findByAddress (wallet wc) (address account) = inr None ->
  reconcile B account = inr created ->
  findByAddress (wallet wc) (address created) = inr (Some m) ->
  setBaseAccount B account wc =
    (inr tt, {| wallet := wallet wc ++ []; baseAccount := None |}).
Proof.
  intros Hnone Hrec Hsome. rewrite setBaseAccount_run, Hnone.
  unfold addAccountsToWallet. cbn [List.length Nat.ltb Nat.leb MAX_WALLET_ACCOUNTS].
  unfold addAccountsLoop, bind, lift. rewrite Hrec.
  rewrite getWalletAccountByAddress_run, Hsome. reflexivity.
Qed.

Lemma addPrivateKeysToWallet_base B keys wc :
  baseAccount (snd (addPrivateKeysToWallet B keys wc)) = baseAccount wc.
Proof.
  destruct (addPrivateKeysToWallet_run B keys wc) as [(e & ->)|(added & -> & _)];
    reflexivity.
Qed.

Lemma addAccountsToWallet_base B accounts wc :
  baseAccount (snd (addAccountsToWallet B accounts wc)) = baseAccount wc.
Proof.
  destruct (addAccountsToWallet_run B accounts wc) as [(e & ->)|(added & -> & _)];
    reflexivity.
Qed.

(** C6, as the code has it, in any state [wc] that a sequence of wallet
    operations reaches from a new wallet, the addresses passed to
    [setBaseAccount] being ASCII text:
    - [setBaseAccount] for an address that a member has (up to case)
      leaves the account sequence as it is and designates the object
      passed in;
    - [setBaseAccount] for an address that no member has, with an account
      that passes the checks and whose derived address no member has
      either, appends the account the checks built and designates that
      stored member;
    - [cleanWallet], [removeAddressesFromWallet] and the two adding methods
      leave the base account as it is, [cleanWallet] emptying the sequence
      under it;
    - when the sequence had no [cleanWallet] and no removal, a base account
      that is set has the address (up to case) of a member. *)
Theorem base_account_designation B ops :
  forallb asciiOp ops = true ->
  (forall account m,
     asciiAddress (address account) = true ->
     findByAddress (wallet (runOps B emptyClient ops)) (address account) = inr (Some m) ->
     setBaseAccount B account (runOps B emptyClient ops) =
       (inr tt, {| wallet := wallet (runOps B emptyClient ops);
                   baseAccount := Some account |})) /\
  (forall account created,
     asciiAddress (address account) = true ->
     findByAddress (wallet (runOps B emptyClient ops)) (address account) = inr None ->
     reconcile B account = inr created ->
     findByAddress (wallet (runOps B emptyClient ops)) (address created) = inr None ->
     setBaseAccount B account (runOps B emptyClient ops) =
       (inr tt, {| wallet := wallet (runOps B emptyClient ops) ++ [created];
                   baseAccount := Some created |}) /\
     baseIsMember (snd (setBaseAccount B account (runOps B emptyClient ops)))) /\
  cleanWallet (runOps B emptyClient ops) =
    (inr tt, {| wallet := []; baseAccount := baseAccount (runOps B emptyClient ops) |}) /\
  (forall addresses,
     baseAccount (snd (removeAddressesFromWallet addresses (runOps B emptyClient ops))) =
     baseAccount (runOps B emptyClient ops)) /\
  (forall privateKeys,
     baseAccount (snd (addPrivateKeysToWallet B privateKeys (runOps B emptyClient ops))) =
     baseAccount (runOps B emptyClient ops)) /\
  (forall accounts,
     baseAccount (snd (addAccountsToWallet B accounts (runOps B emptyClient ops))) =
     baseAccount (runOps B emptyClient ops)) /\
  (forallb keepsMembers ops = true -> baseAddressInWallet (runOps B emptyClient ops)).
Proof.
  intros _. set (wc := runOps B emptyClient ops).
  split; [|split; [|split; [|split; [|split; [|split]]]]].
  - intros account m _ Hfound. now rewrite setBaseAccount_run, Hfound.
  - intros account created _ Hnone Hrec Hnone'.
    rewrite (setBaseAccount_stores B account created wc Hnone Hrec Hnone').
    split; [reflexivity|]. unfold baseIsMember. cbn.
    apply in_or_app. right. now left.
  - reflexivity.
  - intros addresses. reflexivity.
  - intros privateKeys. apply addPrivateKeysToWallet_base.
  - intros accounts. apply addAccountsToWallet_base.
  - intros Hops. apply runOps_keeps_base_address; [assumption|exact I].
Qed.

(** On the wallet that holds [aliceStored]: the address of [aliceStored]
    with an object without keys, then the account [bobStored], which is
    new. *)
Lemma base_account_designation_witness :
  setBaseAccount Toy.backend Toy.aliceWatchOnly
    (runOps Toy.backend emptyClient [OpAddPrivateKeys ["k1"]]) =
    (inr tt, {| wallet := [Toy.aliceStored]; baseAccount := Some Toy.aliceWatchOnly |}) /\
  setBaseAccount Toy.backend Toy.bobStored
    (runOps Toy.backend emptyClient [OpAddPrivateKeys ["k1"]]) =
    (inr tt, {| wallet := [Toy.aliceStored; Toy.bobStored];
                baseAccount := Some Toy.bobStored |}) /\
  baseIsMember
    (snd (setBaseAccount Toy.backend Toy.bobStored
            (runOps Toy.backend emptyClient [OpAddPrivateKeys ["k1"]]))) /\
  baseAddressInWallet
    (runOps Toy.backend emptyClient
       [OpAddPrivateKeys ["k1"]; OpSetBaseAccount Toy.aliceWatchOnly]).
Proof.
  destruct (base_account_designation Toy.backend [OpAddPrivateKeys ["k1"]] eq_refl)
    as (Hpresent & Habsent & _).
  destruct (base_account_designation Toy.backend
              [OpAddPrivateKeys ["k1"]; OpSetBaseAccount Toy.aliceWatchOnly] eq_refl)
    as (_ & _ & _ & _ & _ & _ & Hinv).
  split; [|split; [|split]].
  - apply (Hpresent Toy.aliceWatchOnly Toy.aliceStored); reflexivity.
  - apply (Habsent Toy.bobStored Toy.bobStored); reflexivity.
  - apply (Habsent Toy.bobStored Toy.bobStored); reflexivity.
  - apply Hinv. reflexivity.
Defined.

(** C6 as stated fails: [cleanWallet] empties the sequence and leaves the
    base account set; and [setBaseAccount] with the address of a member
    designates the object passed in, here one without keys, which is not
    the stored member. *)
Lemma base_account_not_member_counterexample :
  (baseAccount (runOps Toy.backend emptyClient [OpSetBaseAccount Toy.alice; OpCleanWallet])
     = Some Toy.aliceStored /\
   wallet (runOps Toy.backend emptyClient [OpSetBaseAccount Toy.alice; OpCleanWallet]) = [] /\
   ~ baseIsMember
       (runOps Toy.backend emptyClient [OpSetBaseAccount Toy.alice; OpCleanWallet])) /\
  (baseAccount
     (runOps Toy.backend emptyClient
        [OpAddPrivateKeys ["k1"]; OpSetBaseAccount Toy.aliceWatchOnly])
     = Some Toy.aliceWatchOnly /\
   wallet
     (runOps Toy.backend emptyClient
        [OpAddPrivateKeys ["k1"]; OpSetBaseAccount Toy.aliceWatchOnly])
     = [Toy.aliceStored] /\
   ~ baseIsMember
       (runOps Toy.backend emptyClient
          [OpAddPrivateKeys ["k1"]; OpSetBaseAccount Toy.aliceWatchOnly])).
Proof.
  split.
  - split; [reflexivity|]. split; [reflexivity|]. intros H. exact H.
  - split; [reflexivity|]. split; [reflexivity|].
    intros [H|[]]. discriminate H.
Qed.

(** The account an entry reconciles to stores the private key the entry
    resolves to. *)
Lemma reconcile_privateKey B account created :
  reconcile B account = inr created ->
  resolvePrivateKey B account = inr (privateKey created).
Proof.
  unfold reconcile.
  destruct (andb _ _); [discriminate|].
  destruct (resolvePrivateKey B account) as [e|resolved]; [discriminate|].
  destruct (decode B resolved); [discriminate|].
  destruct (lib (getPublicKey B _)); [discriminate|].
  destruct (andb _ _); [discriminate|].
  destruct (andb _ _); [discriminate|].
  intros H. injection H as <-. reflexivity.
Qed.

Lemma lib_inr {A} (r : string + A) (a : A) : lib r = inr a -> r = inr a.
Proof. destruct r; cbn; congruence. Qed.

(** The two branches of the resolution: without an entropy the supplied
    private key, with an entropy the key derived from it. *)
Lemma resolvePrivateKey_cases B account resolved :
  resolvePrivateKey B account = inr resolved ->
  (truthy (randomEntropy account) = false -> resolved = privateKey account) /\
  (truthy (randomEntropy account) = true ->
   exists eb sk,
     decode B (randomEntropy account) = inr eb /\
     hashToPrivateKey B eb = inr sk /\
     resolved = orElse (Some (base58Encode B sk)) (privateKey account)).
Proof.
  unfold resolvePrivateKey.
  destruct (truthy (randomEntropy account)) eqn:Et.
  - destruct (decode B (randomEntropy account)) as [e|eb]; [discriminate|].
    destruct (lib (hashToPrivateKey B eb)) as [e|sk] eqn:Eh; [discriminate|].
    intros H. injection H as <-. split; [discriminate|].
    intros _. exists eb, sk. repeat split. now apply lib_inr.
  - intros H. injection H as <-. split; [reflexivity|discriminate].
Qed.




(** C8, as the code has it: with both key fields present the call returns
    a signature exactly when the two keys decode, the signature made for
    the payload's hash has 64 bytes and it verifies under the decoded
    public key; the two fields of the result encode those bytes.  Without
    one of the key fields the call throws. *)
Theorem walletSignMessage_spec B data signer :
  (truthy (privateKey signer) = false ->
   walletSignMessage B data signer = inl NoPrivateKeyToSign) /\
  (truthy (privateKey signer) = true -> truthy (publicKey signer) = false ->
   walletSignMessage B data signer = inl NoPublicKeyToVerify) /\
  (forall s,
     walletSignMessage B data signer = inr s <->
     truthy (privateKey signer) = true /\ truthy (publicKey signer) = true /\
     exists sk pk sig,
       decode B (privateKey signer) = inr sk /\
       decode B (publicKey signer) = inr pk /\
       signSync B (hashBlake3 B (bufferFrom data)) sk = inr sig /\
       List.length sig = 64 /\
       verifySync B sig (hashBlake3 B (bufferFrom data)) pk = inr true /\
       s = {| hex := bytesToHex B sig; base58Encoded := base58Encode B sig |}).
Proof.
  unfold walletSignMessage.
  destruct (truthy (privateKey signer)) eqn:Epriv; cbn [negb].
  2:{ split; [reflexivity|]. split; [discriminate|].
      intros s. split; [discriminate|]. intros (H & _). discriminate. }
  split; [discriminate|].
  destruct (truthy (publicKey signer)) eqn:Epub; cbn [negb].
  2:{ split; [reflexivity|].
      intros s. split; [discriminate|]. intros (_ & H & _). discriminate. }
  split; [discriminate|].
  intros s.
  destruct (decode B (privateKey signer)) as [e|sk] eqn:Esk.
  { split; [discriminate|]. intros (_ & _ & sk & pk & sig & H & _). discriminate. }
  destruct (signSync B (hashBlake3 B (bufferFrom data)) sk) as [e|sig] eqn:Esig; cbn [lib].
  { split; [discriminate|].
    intros (_ & _ & sk' & pk & sig & H1 & _ & H3 & _).
    injection H1 as <-. rewrite Esig in H3. discriminate. }
  destruct (Nat.eqb_spec (List.length sig) 64) as [Hlen|Hlen]; cbn [negb].
  2:{ split; [discriminate|].
      intros (_ & _ & sk' & pk & sig' & H1 & _ & H3 & H4 & _).
      injection H1 as <-. rewrite Esig in H3. injection H3 as <-. contradiction. }
  destruct (decode B (publicKey signer)) as [e|pk] eqn:Epk.
  { split; [discriminate|]. intros (_ & _ & sk' & pk & sig' & _ & H & _). discriminate. }
  destruct (verifySync B sig (hashBlake3 B (bufferFrom data)) pk) as [e|[|]] eqn:Ev; cbn [lib negb].
  - split; [discriminate|].
    intros (_ & _ & sk' & pk' & sig' & H1 & H2 & H3 & _ & H5 & _).
    injection H1 as <-. injection H2 as <-. rewrite Esig in H3. injection H3 as <-.
    rewrite Ev in H5. discriminate.
  - split.
    + intros H. injection H as <-. repeat split.
      exists sk, pk, sig. repeat split; assumption.
    + intros (_ & _ & sk' & pk' & sig' & H1 & H2 & H3 & _ & _ & ->).
      injection H1 as <-. rewrite Esig in H3. injection H3 as <-. reflexivity.
  - split; [discriminate|].
    intros (_ & _ & sk' & pk' & sig' & H1 & H2 & H3 & _ & H5 & _).
    injection H1 as <-. injection H2 as <-. rewrite Esig in H3. injection H3 as <-.
    rewrite Ev in H5. discriminate.
Qed.

Lemma walletSignMessage_spec_witness :
  walletSignMessage Toy.backend (inl "hello") Toy.aliceSigner =
    inr {| hex := bytesToHex Toy.backend (Toy.pad64 (list_byte_of_string "k1k1olleh"));
           base58Encoded :=
             base58Encode Toy.backend (Toy.pad64 (list_byte_of_string "k1k1olleh")) |} /\
  walletSignMessage Toy.backend (inl "hello") Toy.aliceWatchOnly = inl NoPrivateKeyToSign.
Proof.
  destruct (walletSignMessage_spec Toy.backend (inl "hello") Toy.aliceSigner)
    as (_ & _ & Hret).
  destruct (walletSignMessage_spec Toy.backend (inl "hello") Toy.aliceWatchOnly)
    as (Hmissing & _).
  split; [|apply Hmissing; reflexivity].
  apply Hret. split; [reflexivity|]. split; [reflexivity|].
  exists (list_byte_of_string "k1"), (list_byte_of_string "k1k1"),
         (Toy.pad64 (list_byte_of_string "k1k1olleh")).
  repeat split; reflexivity.
Defined.

(** C8 as stated fails: for an account with both key fields present the
    call can throw: here the public key is not the one of the private
    key and the self-verification of line 341 rejects the signature; a
    private key that is not base-58 text makes the decoder throw. *)
Lemma sign_with_both_keys_can_throw_counterexample :
  truthy (privateKey Toy.mallory) = true /\
  truthy (publicKey Toy.mallory) = true /\
  walletSignMessage Toy.backend (inl "hello") Toy.mallory = inl SignatureNotVerified /\
  walletSignMessage Toy.backend (inl "hello")
    {| address := None; publicKey := Some "k1k1"; privateKey := Some "0OIl";
       randomEntropy := None |}
  = inl (LibraryError "Non-base58 character").
Proof.
  repeat split; reflexivity.
Qed.

(** C9: a list of more than 256 private keys is refused with the
    maximum-exceeded error whatever the keys are, and the wallet client is
    left as it was. *)
Theorem too_many_private_keys_rejected B wc privateKeys :
  256 < List.length privateKeys ->
  addPrivateKeysToWallet B privateKeys wc =
    (inl (MaxAccountsExceeded (List.length privateKeys)), wc).
Proof.
  intros H. unfold addPrivateKeysToWallet.
  destruct (Nat.ltb_spec MAX_WALLET_ACCOUNTS (List.length privateKeys)) as [_|Hle].
  - reflexivity.
  - exfalso. unfold MAX_WALLET_ACCOUNTS in Hle. lia.
Qed.

(** 257 keys, none of which is base-58 text, on a wallet with one member. *)
Lemma too_many_private_keys_rejected_witness :
  addPrivateKeysToWallet Toy.backend (repeat "0OIl" 257)
    {| wallet := [Toy.aliceStored]; baseAccount := None |} =
  (inl (MaxAccountsExceeded 257), {| wallet := [Toy.aliceStored]; baseAccount := None |}).
Proof.
  apply (too_many_private_keys_rejected Toy.backend
           {| wallet := [Toy.aliceStored]; baseAccount := None |} (repeat "0OIl" 257)).
  rewrite repeat_length. lia.
Defined.

(** The ways an entry fails the checks of lines 143-172. *)
Lemma reconcile_failures B account :
  (truthy (randomEntropy account) = false -> truthy (privateKey account) = false ->
   reconcile B account = inl MissingEntropyOrPrivateKey) /\
  (forall k msg, truthy (randomEntropy account) = false -> privateKey account = Some k ->
   k <> EmptyString -> base58Decode B k = inl msg ->
   reconcile B account = inl (LibraryError msg)) /\
  (forall k sk pk p, truthy (randomEntropy account) = false -> privateKey account = Some k ->
   k <> EmptyString -> base58Decode B k = inr sk -> getPublicKey B sk = inr pk ->
   publicKey account = Some p -> p <> EmptyString -> p <> base58Encode B pk ->
   reconcile B account = inl PublicKeyMismatch) /\
  (forall k sk pk a, truthy (randomEntropy account) = false -> privateKey account = Some k ->
   k <> EmptyString -> base58Decode B k = inr sk -> getPublicKey B sk = inr pk ->
   truthy (publicKey account) = false ->
   address account = Some a -> a <> EmptyString -> a <> deriveAddress B pk ->
   reconcile B account = inl AddressMismatch).
Proof.
  assert (Ht : forall k, k <> EmptyString -> truthy (Some k) = true).
  { intros k Hk. cbn. now destruct (String.eqb_spec k EmptyString). }
  destruct account as [addr pub priv ent].
  unfold reconcile, resolvePrivateKey, orElse, decode.
  cbn [Wallet.address Wallet.publicKey Wallet.privateKey Wallet.randomEntropy].
  repeat split.
  - intros -> ->. reflexivity.
  - intros k msg -> -> Hk Hd. rewrite (Ht k Hk). cbn [truthy andb negb].
    now rewrite Hd.
  - intros k sk pk p -> -> Hk Hd Hp -> Hp0 Hne. rewrite (Ht k Hk), (Ht p Hp0).
    cbn [truthy andb negb]. rewrite Hd. cbn [lib]. rewrite Hp. cbn [lib].
    rewrite (proj2 (String.eqb_neq _ _) Hne). reflexivity.
  - intros k sk pk a -> -> Hk Hd Hp -> -> Ha0 Hne. rewrite (Ht k Hk), (Ht a Ha0).
    cbn [truthy andb negb]. rewrite Hd. cbn [lib]. rewrite Hp. cbn [lib andb].
    rewrite (proj2 (String.eqb_neq _ _) Hne). reflexivity.
Qed.

(** C10: when an entry of the batch fails the checks, the call throws and
    the wallet client is as before the call: nothing of the batch is added,
    the valid entries before the failing one included. *)
Theorem failed_batch_adds_nothing B wc accounts bad e :
  In bad accounts ->
  reconcile B bad = inl e ->
  exists e', addAccountsToWallet B accounts wc = (inl e', wc).
Proof.
  intros Hin Hbad.
  destruct (addAccountsToWallet_run B accounts wc) as [He|(added & _ & _ & Hloop)];
    [exact He|].
  destruct (addAccountsLoop_throws B accounts bad e [] wc Hin Hbad) as (e' & He').
  rewrite Hloop in He'. discriminate.
Qed.

(** A valid entry followed by one whose public key does not match. *)
Lemma failed_batch_adds_nothing_witness :
  exists e',
    addAccountsToWallet Toy.backend [Toy.alice; Toy.mallory] emptyClient = (inl e', emptyClient).
Proof.
  apply (failed_batch_adds_nothing Toy.backend emptyClient [Toy.alice; Toy.mallory]
           Toy.mallory PublicKeyMismatch).
  - simpl. right. left. reflexivity.
  - reflexivity.
Defined.

(** Whatever makes [addAccountsToWallet] throw, the wallet client is
    unchanged. *)
Lemma addAccountsToWallet_throw_state B accounts wc e wc' :
  addAccountsToWallet B accounts wc = (inl e, wc') -> wc' = wc.
Proof.
  intros H.
  destruct (addAccountsToWallet_run B accounts wc) as [(e' & He)|(added & Hr & _)];
    rewrite H in *; [now injection He|discriminate].
Qed.

End WalletFacts.

Module TrackerMore.
Import Tracker TrackerFacts.

(** What a pass adds to the number of waits: one when the run goes on,
    and one more in the catch block when its lookup was rejected. *)
Lemma iteration_waits oracle requiredStatus st :
  match iteration oracle requiredStatus st with
  | inr st' =>
      waits st' = S (waits st) + (if rejected (oracle (lookups st)) then 1 else 0)
  | inl (st', Returned _) =>
      waits st' = waits st + (if rejected (oracle (lookups st)) then 1 else 0)
  | inl (st', GaveUp) =>
      waits st' = waits st + (if rejected (oracle (lookups st)) then 1 else 0)
  | inl (st', Rethrown _) => waits st' = waits st
  end.
Proof.
  unfold iteration, tryLookup, rejected.
  destruct (getOperationStatus (oracle (lookups st))) as [ex|s].
  - cbn [errCounter incrErr lookedUp].
    destruct (Nat.ltb 100 (S (errCounter st))); [reflexivity|].
    destruct (status_eqb NOT_FOUND requiredStatus); [cbn; lia|].
    cbn [pendingCounter incrPending waited incrErr lookedUp].
    destruct (Nat.ltb 1000 (S (pendingCounter st))); cbn; lia.
  - destruct (status_eqb s requiredStatus); [cbn; lia|].
    cbn [pendingCounter incrPending lookedUp].
    destruct (Nat.ltb 1000 (S (pendingCounter st))); cbn; lia.
Qed.

Lemma passes_waits oracle requiredStatus n st :
  passes oracle requiredStatus n = Some st -> waits st = n + failures oracle n.
Proof.
  revert st. induction n as [|n IH]; intros st H.
  - cbn in H. injection H as <-. reflexivity.
  - destruct (passes_earlier _ _ _ _ H) as (st0 & H0 & Hi).
    destruct (passes_counters _ _ _ _ H0) as (Hl & _).
    pose proof (iteration_waits oracle requiredStatus st0) as Hw.
    rewrite Hi, Hl, (IH _ H0) in Hw. cbn [failures]. lia.
Qed.

(** Whatever the node answers, the run ends, after at least one and at
    most 1001 lookups, and fuel beyond 1001 passes does not change how. *)
Theorem await_ends_within_1001_lookups oracle requiredStatus :
  exists stop,
    (forall fuel, 1001 <= fuel ->
       awaitRequiredOperationStatus oracle requiredStatus fuel = Some stop) /\
    1 <= lookups (fst stop) <= 1001.
Proof.
  destruct (await_total oracle requiredStatus 1001 (le_n _)) as (stop & Hstop).
  exists stop. split.
  - intros fuel Hfuel. now apply (await_fuel_irrelevant _ _ 1001).
  - destruct (await_inv _ _ _ _ Hstop) as (m & st1 & H1 & H2 & Hm).
    destruct (passes_counters _ _ _ _ H1) as (Hl & _).
    destruct (iteration_cases oracle requiredStatus st1)
      as [(ex & _ & _ & Hi)|[(_ & _ & st' & Hi & Hl')|[(_ & _ & _ & st' & Hi & Hl' & _)|
          (_ & _ & _ & st' & Hi & _)]]]; rewrite Hi in H2; try discriminate;
      injection H2 as <-; cbn [fst lookups incrErr lookedUp]; lia.
Qed.

(** A run returns no other status than the required one, at the first
    lookup that shows it (a rejected lookup counting as NOT_FOUND), after
    one wait per earlier pass and one more per rejected lookup. *)
Theorem returns_first_required_status oracle requiredStatus fuel st' s :
  awaitRequiredOperationStatus oracle requiredStatus fuel = Some (st', Returned s) ->
  s = requiredStatus /\
  exists n,
    lookups st' = S n /\
    observed (oracle n) = requiredStatus /\
    (forall i, i < n -> observed (oracle i) <> requiredStatus) /\
    waits st' = n + failures oracle (S n).
Proof.
  intros H. destruct (await_inv _ _ _ _ H) as (m & st1 & H1 & H2 & _).
  destruct (passes_counters _ _ _ _ H1) as (Hl & _).
  destruct (proj1 (passes_iff oracle requiredStatus m) (ex_intro _ st1 H1)) as (_ & _ & Hall).
  pose proof (iteration_waits oracle requiredStatus st1) as Hw.
  pose proof (passes_waits _ _ _ _ H1) as Hw1.
  destruct (iteration_cases oracle requiredStatus st1)
    as [(ex & _ & _ & Hi)|[(Hobs & _ & st2 & Hi & Hl2)|[(_ & _ & _ & st2 & Hi & _)|
        (_ & _ & _ & st2 & Hi & _)]]]; rewrite Hi in H2; try discriminate.
  injection H2 as <- <-. split; [reflexivity|].
  exists m. rewrite Hi, Hl in Hw. rewrite Hl in Hobs, Hl2.
  repeat split; auto. cbn [failures]. lia.
Qed.

Lemma returns_first_required_status_witness :
  NOT_FOUND = NOT_FOUND /\
  exists n,
    4 = S n /\
    observed (droppingNode n) = NOT_FOUND /\
    (forall i, i < n -> observed (droppingNode i) <> NOT_FOUND) /\
    4 = n + failures droppingNode (S n).
Proof.
  apply (returns_first_required_status droppingNode NOT_FOUND 1001
           {| errCounter := 1; pendingCounter := 3; lookups := 4; waits := 4 |} NOT_FOUND).
  vm_compute. reflexivity.
Defined.

(** The run returns as soon as a lookup shows the required status: when
    the first [n] lookups did not show it, fewer than 1001 passes were made
    and the error budget is not exhausted by lookup [n]. *)
Theorem returns_as_soon_as_seen oracle requiredStatus n fuel :
  n <= 1000 ->
  (forall i, i < n -> observed (oracle i) <> requiredStatus) ->
  failures oracle (S n) <= 100 ->
  observed (oracle n) = requiredStatus ->
  n < fuel ->
  exists st',
    awaitRequiredOperationStatus oracle requiredStatus fuel =
      Some (st', Returned requiredStatus) /\
    lookups st' = S n.
Proof.
  intros Hn Hall Hf Hobs Hfuel. cbn [failures] in Hf.
  destruct (proj2 (passes_iff oracle requiredStatus n)) as (st & Hp).
  { split; [assumption|]. split; [lia|assumption]. }
  destruct (passes_counters _ _ _ _ Hp) as (Hl & _ & He & _).
  destruct (iteration_cases oracle requiredStatus st)
    as [(ex & Hg & Hlt & _)|[(_ & _ & st2 & Hi & Hl2)|[(Hne & _)|(Hne & _)]]].
  - exfalso. rewrite Hl in Hg. unfold rejected in Hf. rewrite Hg in Hf. lia.
  - exists st2. split; [apply (await_ends_at _ _ n st); auto|lia].
  - exfalso. apply Hne. now rewrite Hl.
  - exfalso. apply Hne. now rewrite Hl.
Qed.

Lemma returns_as_soon_as_seen_witness :
  exists st',
    awaitRequiredOperationStatus flakyNode NOT_FOUND 1001 = Some (st', Returned NOT_FOUND) /\
    lookups st' = 1.
Proof.
  apply (returns_as_soon_as_seen flakyNode NOT_FOUND 0 1001).
  - lia.
  - intros i Hi. lia.
  - vm_compute. lia.
  - reflexivity.
  - lia.
Defined.

Lemma first_lookup_returns_witness :
  awaitRequiredOperationStatus droppingNode AWAITING_INCLUSION 1001 =
    Some ({| errCounter := 0; pendingCounter := 0; lookups := 1; waits := 0 |},
          Returned AWAITING_INCLUSION).
Proof.
  apply (first_lookup_returns droppingNode AWAITING_INCLUSION 1001).
  - reflexivity.
  - lia.
Defined.

Lemma rethrown_inv_witness :
  exists n, 102 = S n /\ failures flakyNode (S n) = 101 /\
            getOperationStatus (flakyNode n) = inl "unreachable".
Proof.
  apply (rethrown_inv flakyNode FINAL 1001
           {| errCounter := 101; pendingCounter := 101; lookups := 102; waits := 201 |}
           "unreachable").
  vm_compute. reflexivity.
Defined.

Lemma gaveUp_inv_witness :
  1001 = 1001 /\ 1001 = 1001 /\
  forall i, i < 1001 -> observed (slowNode i) <> FINAL.
Proof.
  apply (gaveUp_inv slowNode FINAL 1001
           {| errCounter := 1; pendingCounter := 1001; lookups := 1001; waits := 1001 |}).
  vm_compute. reflexivity.
Defined.

End TrackerMore.

Module WalletMore.
Import Wallet WalletFacts Client.

Lemma lowerAscii_idem c : lowerAscii (lowerAscii c) = lowerAscii c.
Proof. destruct c as [[] [] [] [] [] [] [] []]; reflexivity. Qed.

Lemma toLowerCase_idem s : toLowerCase (toLowerCase s) = toLowerCase s.
Proof.
  induction s as [|c rest IH]; [reflexivity|].
  cbn. now rewrite lowerAscii_idem, IH.
Qed.

Lemma findByAddress_same_lower w y1 y2 :
  toLowerCase y1 = toLowerCase y2 ->
  findByAddress w (Some y1) = findByAddress w (Some y2).
Proof.
  intros H. induction w as [|a rest IH]; [reflexivity|].
  cbn. destruct (address a); [|reflexivity]. now rewrite H, IH.
Qed.

(** The lookup by address does not see the case of its argument: an
    address and its lower-cased form find the same member, or both find
    none, or both throw. *)
Theorem lookup_ignores_case addr wc :
  getWalletAccountByAddress (Some (toLowerCase addr)) wc =
  getWalletAccountByAddress (Some addr) wc.
Proof.
  rewrite !getWalletAccountByAddress_run. f_equal.
  apply findByAddress_same_lower, toLowerCase_idem.
Qed.

Lemma sameAddress_sym a b : sameAddress a b -> sameAddress b a.
Proof. intros (x & y & Hx & Hy & H). exists y, x. auto. Qed.

Lemma findByAddress_total w a :
  addressed w -> exists r, findByAddress w (Some a) = inr r.
Proof.
  induction w as [|m rest IH]; intros Hw; [eexists; reflexivity|].
  cbn. destruct (Hw m (or_introl eq_refl)) as (x & ->).
  destruct (String.eqb (toLowerCase x) (toLowerCase a)); [eexists; reflexivity|].
  apply IH. intros m' Hm'. apply Hw. now right.
Qed.

Lemma findByAddress_app_found w l addr m :
  findByAddress w addr = inr (Some m) -> findByAddress (w ++ l) addr = inr (Some m).
Proof.
  induction w as [|a rest IH]; cbn; [discriminate|].
  destruct (address a); [|discriminate]. destruct addr as [y|]; [|discriminate].
  destruct (String.eqb _ _); [trivial|exact IH].
Qed.

Lemma findByAddress_app_none w l addr :
  findByAddress w addr = inr None -> findByAddress (w ++ l) addr = findByAddress l addr.
Proof.
  induction w as [|a rest IH]; cbn; [reflexivity|].
  destruct (address a); [|discriminate]. destruct addr as [y|]; [|discriminate].
  destruct (String.eqb _ _); [discriminate|exact IH].
Qed.

(** In a list whose members all have an address, a member is found by its
    own address, or an earlier one with the same address up to case is. *)
Lemma findByAddress_member l a y :
  addressed l -> In a l -> address a = Some y ->
  exists m, findByAddress l (Some y) = inr (Some m) /\ sameAddress m a.
Proof.
  induction l as [|b rest IH]; intros Hl Hin Hy; [destruct Hin|].
  cbn. destruct (Hl b (or_introl eq_refl)) as (x & Hx). rewrite Hx.
  destruct (String.eqb_spec (toLowerCase x) (toLowerCase y)) as [Heq|Hne].
  - exists b. split; [reflexivity|]. exists x, y. auto.
  - destruct Hin as [->|Hin]; [congruence|].
    apply IH; auto. intros m' Hm'. apply Hl. now right.
Qed.

Section Invariants.

Variable B : Backend.

Lemma reconcile_derived account created :
  reconcile B account = inr created -> derivedMember created.
Proof.
  unfold reconcile.
  destruct (andb _ _); [discriminate|].
  destruct (resolvePrivateKey B account); [discriminate|].
  destruct (decode B _); [discriminate|].
  destruct (lib (getPublicKey B _)); [discriminate|].
  destruct (andb _ _); [discriminate|].
  destruct (andb _ _); [discriminate|].
  intros H. injection H as <-. eexists _, _. split; reflexivity.
Qed.

Lemma accountOfPrivateKey_derived k created :
  accountOfPrivateKey B k = inr created -> derivedMember created.
Proof.
  unfold accountOfPrivateKey.
  destruct (lib (base58Decode B k)); [discriminate|].
  destruct (lib (getPublicKey B _)); [discriminate|].
  intros H. injection H as <-. eexists _, _. split; reflexivity.
Qed.

Lemma spliceFirst_In w a m : In m (spliceFirst w a) -> In m w.
Proof.
  induction w as [|b rest IH]; cbn; [trivial|].
  destruct (address b) as [x|].
  - destruct (String.eqb x a); [now right|].
    intros [<-|H]; [now left|right; auto].
  - intros [<-|H]; [now left|right; auto].
Qed.

Lemma fold_spliceFirst_In addresses : forall w m,
  In m (fold_left spliceFirst addresses w) -> In m w.
Proof.
  induction addresses as [|a rest IH]; intros w m; cbn; [trivial|].
  intros H. apply (spliceFirst_In w a), IH, H.
Qed.

(** What the adding methods append was built by them. *)
Lemma addAccountsToWallet_appends accounts wc :
  exists added,
    wallet (snd (addAccountsToWallet B accounts wc)) = wallet wc ++ added /\
    baseAccount (snd (addAccountsToWallet B accounts wc)) = baseAccount wc /\
    List.length added <= List.length accounts /\
    forall a, In a added ->
      derivedMember a /\ forall m, In m (wallet wc) -> ~ sameAddress m a.
Proof.
  destruct (addAccountsToWallet_run B accounts wc) as [(e & He)|(added & Hr & _ & Hloop)].
  - exists []. rewrite He. cbn [snd]. rewrite app_nil_r.
    split; [reflexivity|]. split; [reflexivity|]. split; [cbn; lia|]. intros a [].
  - exists added. rewrite Hr. cbn. split; [reflexivity|]. split; [reflexivity|].
    destruct (addAccountsLoop_result B _ _ _ _ Hloop) as (new & Hnew & Hall).
    cbn in Hnew. subst new. split.
    + clear Hall Hr.
      assert (G : forall accs acc r, fst (addAccountsLoop B accs acc wc) = inr r ->
                    List.length r <= List.length acc + List.length accs).
      { induction accs as [|account rest IH]; intros acc r.
        - cbn. intros H. injection H as <-. lia.
        - cbn [addAccountsLoop]. unfold bind at 1. unfold lift at 1.
          destruct (reconcile B account) as [e|created]; [discriminate|].
          unfold bind at 1. rewrite getWalletAccountByAddress_run.
          destruct (findByAddress (wallet wc) (address created)) as [e|[m|]];
            [discriminate| |]; intros H; apply IH in H; cbn [List.length];
            rewrite ?length_app in H; cbn in H; lia. }
      apply G in Hloop. exact Hloop.
    + intros a Ha. destruct (Hall a Ha) as ((account & _ & Hrec) & Hf).
      split; [exact (reconcile_derived _ _ Hrec)|].
      intros m Hm (x & y & Hx & Hy & Hxy). rewrite Hy in Hf.
      exact (findByAddress_none _ _ Hf m x Hm Hx Hxy).
Qed.

Lemma addPrivateKeysToWallet_appends keys wc :
  exists added,
    wallet (snd (addPrivateKeysToWallet B keys wc)) = wallet wc ++ added /\
    baseAccount (snd (addPrivateKeysToWallet B keys wc)) = baseAccount wc /\
    List.length added <= List.length keys /\
    forall a, In a added ->
      derivedMember a /\ forall m, In m (wallet wc) -> ~ sameAddress m a.
Proof.
  destruct (addPrivateKeysToWallet_run B keys wc) as [(e & He)|(added & Hr & _ & Hloop)].
  - exists []. rewrite He. cbn [snd]. rewrite app_nil_r.
    split; [reflexivity|]. split; [reflexivity|]. split; [cbn; lia|]. intros a [].
  - exists added. rewrite Hr. cbn. split; [reflexivity|]. split; [reflexivity|].
    destruct (addPrivateKeysLoop_result B _ _ _ _ Hloop) as (new & Hnew & Hall).
    cbn in Hnew. subst new. split.
    + clear Hall Hr.
      assert (G : forall ks acc r, fst (addPrivateKeysLoop B ks acc wc) = inr r ->
                    List.length r <= List.length acc + List.length ks).
      { induction ks as [|k rest IH]; intros acc r.
        - cbn. intros H. injection H as <-. lia.
        - cbn [addPrivateKeysLoop]. unfold bind at 1. unfold lift at 1.
          destruct (accountOfPrivateKey B k) as [e|created]; [discriminate|].
          unfold bind at 1. rewrite getWalletAccountByAddress_run.
          destruct (findByAddress (wallet wc) (address created)) as [e|[m|]];
            [discriminate| |]; intros H; apply IH in H; cbn [List.length];
            rewrite ?length_app in H; cbn in H; lia. }
      apply G in Hloop. exact Hloop.
    + intros a Ha. destruct (Hall a Ha) as ((k & _ & Hrec) & Hf).
      split; [exact (accountOfPrivateKey_derived _ _ Hrec)|].
      intros m Hm (x & y & Hx & Hy & Hxy). rewrite Hy in Hf.
      exact (findByAddress_none _ _ Hf m x Hm Hx Hxy).
Qed.

(** The wallet after [setBaseAccount]: as before, or with the accounts
    that its [addAccountsToWallet] call appended. *)
Lemma setBaseAccount_wallet account wc :
  wallet (snd (setBaseAccount B account wc)) = wallet wc \/
  wallet (snd (setBaseAccount B account wc)) =
    wallet (snd (addAccountsToWallet B [account] wc)).
Proof.
  rewrite setBaseAccount_run.
  destruct (findByAddress (wallet wc) (address account)) as [e|[m|]]; [now left|now left|].
  right. destruct (addAccountsToWallet B [account] wc) as [[e|added] wc1]; reflexivity.
Qed.

Lemma runOp_wallet wc op :
  (forall m, In m (wallet (runOp B wc op)) -> In m (wallet wc)) \/
  exists added,
    wallet (runOp B wc op) = wallet wc ++ added /\
    (oneAtATime op = true -> List.length added <= 1) /\
    forall a, In a added ->
      derivedMember a /\ forall m, In m (wallet wc) -> ~ sameAddress m a.
Proof.
  destruct op as [account|keys|accounts|addresses|]; cbn [runOp oneAtATime].
  - destruct (setBaseAccount_wallet account wc) as [-> | ->]; [now left|].
    right. destruct (addAccountsToWallet_appends [account] wc) as (added & Hw & _ & Hlen & Hall).
    exists added. repeat split; auto; apply Hall; assumption.
  - right. destruct (addPrivateKeysToWallet_appends keys wc) as (added & Hw & _ & Hlen & Hall).
    exists added. split; [assumption|]. split; [|assumption].
    intros H. apply Nat.leb_le in H. lia.
  - right. destruct (addAccountsToWallet_appends accounts wc) as (added & Hw & _ & Hlen & Hall).
    exists added. split; [assumption|]. split; [|assumption].
    intros H. apply Nat.leb_le in H. lia.
  - left. cbn. apply fold_spliceFirst_In.
  - left. cbn. intros m [].
Qed.

Lemma runOps_derived ops : forall wc,
  (forall m, In m (wallet wc) -> derivedMember m) ->
  forall m, In m (wallet (runOps B wc ops)) -> derivedMember m.
Proof.
  induction ops as [|op rest IH]; intros wc Hwc; [exact Hwc|].
  cbn. apply IH. intros m Hm.
  destruct (runOp_wallet wc op) as [Hsub|(added & Hw & _ & Hall)].
  - apply Hwc, Hsub, Hm.
  - rewrite Hw in Hm. apply in_app_or in Hm. destruct Hm as [Hm|Hm]; [now apply Hwc|].
    now apply Hall.
Qed.

End Invariants.

(** Whatever operations were run on a new wallet, every member has an
    address that starts with the prefix A and a public key, so a lookup
    by any address string goes through without a TypeError. *)
Theorem members_are_derived B ops :
  (forall m, In m (wallet (runOps B emptyClient ops)) -> derivedMember m) /\
  forall addr, exists found,
    getWalletAccountByAddress (Some addr) (runOps B emptyClient ops) =
      (inr found, runOps B emptyClient ops).
Proof.
  assert (H : forall m, In m (wallet (runOps B emptyClient ops)) -> derivedMember m).
  { apply runOps_derived. intros m []. }
  split; [exact H|].
  intros addr. rewrite getWalletAccountByAddress_run.
  destruct (findByAddress_total (wallet (runOps B emptyClient ops)) addr) as (r & ->).
  - intros m Hm. destruct (H m Hm) as (rest & pk & Ha & _). eauto.
  - eauto.
Qed.

Lemma uniqueAddresses_app w added :
  uniqueAddresses w -> uniqueAddresses added ->
  (forall m a, In m w -> In a added -> ~ sameAddress m a) ->
  uniqueAddresses (w ++ added).
Proof.
  intros Hw Ha Hcross i j a b Hi Hj Hs.
  destruct (Nat.lt_ge_cases i (List.length w)) as [Hiw|Hiw];
    destruct (Nat.lt_ge_cases j (List.length w)) as [Hjw|Hjw].
  - rewrite nth_error_app1 in Hi, Hj by assumption. eauto.
  - rewrite nth_error_app1 in Hi by assumption.
    rewrite nth_error_app2 in Hj by assumption.
    exfalso. apply (Hcross a b); eauto using nth_error_In.
  - rewrite nth_error_app2 in Hi by assumption.
    rewrite nth_error_app1 in Hj by assumption.
    exfalso. apply (Hcross b a); eauto using nth_error_In, sameAddress_sym.
  - rewrite nth_error_app2 in Hi, Hj by assumption.
    pose proof (Ha _ _ _ _ Hi Hj Hs). lia.
Qed.

Lemma uniqueAddresses_short l : List.length l <= 1 -> uniqueAddresses l.
Proof.
  intros Hl i j a b Hi Hj _.
  assert (i < List.length l) by (apply nth_error_Some; congruence).
  assert (j < List.length l) by (apply nth_error_Some; congruence).
  lia.
Qed.

(** The positions of what [spliceFirst] keeps, in the list it started
    from. *)
Lemma spliceFirst_index w a :
  exists f : nat -> nat,
    (forall i j, f i = f j -> i = j) /\
    forall i x, nth_error (spliceFirst w a) i = Some x -> nth_error w (f i) = Some x.
Proof.
  induction w as [|b rest (f & Hinj & Hf)].
  - exists (fun i => i). split; [auto|]. intros [|i] x H; discriminate H.
  - assert (Hkeep : exists g : nat -> nat,
              (forall i j, g i = g j -> i = j) /\
              forall i x, nth_error (b :: spliceFirst rest a) i = Some x ->
                          nth_error (b :: rest) (g i) = Some x).
    { exists (fun i => match i with 0 => 0 | S i' => S (f i') end). split.
      - intros [|i] [|j] H; try discriminate; [reflexivity|].
        injection H as H. f_equal. auto.
      - intros [|i] x H; [exact H|]. cbn in *. auto. }
    cbn. destruct (address b) as [x|]; [|exact Hkeep].
    destruct (String.eqb x a); [|exact Hkeep].
    exists S. split; [intros i j H; now injection H|]. intros i y H. exact H.
Qed.

Lemma uniqueAddresses_spliceFirst w a :
  uniqueAddresses w -> uniqueAddresses (spliceFirst w a).
Proof.
  intros Hw i j x y Hi Hj Hs.
  destruct (spliceFirst_index w a) as (f & Hinj & Hf).
  apply Hinj. exact (Hw _ _ _ _ (Hf _ _ Hi) (Hf _ _ Hj) Hs).
Qed.

Lemma uniqueAddresses_fold addresses : forall w,
  uniqueAddresses w -> uniqueAddresses (fold_left spliceFirst addresses w).
Proof.
  induction addresses as [|a rest IH]; intros w Hw; [exact Hw|].
  cbn. apply IH, uniqueAddresses_spliceFirst, Hw.
Qed.

Lemma runOp_unique B wc op :
  oneAtATime op = true -> uniqueAddresses (wallet wc) ->
  uniqueAddresses (wallet (runOp B wc op)).
Proof.
  intros Hop Hw.
  assert (Happ : forall added, List.length added <= 1 ->
            (forall a, In a added ->
               derivedMember a /\ forall m, In m (wallet wc) -> ~ sameAddress m a) ->
            uniqueAddresses (wallet wc ++ added)).
  { intros added Hlen Hall. apply uniqueAddresses_app; auto using uniqueAddresses_short.
    intros m a Hm Ha. now apply (proj2 (Hall a Ha)). }
  destruct op as [account|keys|accounts|addresses|]; cbn [runOp oneAtATime] in *.
  - destruct (setBaseAccount_wallet B account wc) as [-> | ->]; [exact Hw|].
    destruct (addAccountsToWallet_appends B [account] wc) as (added & -> & _ & Hlen & Hall).
    apply Happ; auto.
  - apply Nat.leb_le in Hop.
    destruct (addPrivateKeysToWallet_appends B keys wc) as (added & -> & _ & Hlen & Hall).
    apply Happ; auto; lia.
  - apply Nat.leb_le in Hop.
    destruct (addAccountsToWallet_appends B accounts wc) as (added & -> & _ & Hlen & Hall).
    apply Happ; auto; lia.
  - cbn. apply uniqueAddresses_fold, Hw.
  - cbn. apply uniqueAddresses_short. cbn. lia.
Qed.

(** When accounts are added one at a time (batches of at most one key or
    one entry, [setBaseAccount], removals, [cleanWallet]), no two members
    of the wallet have the same address up to case. *)
Theorem one_at_a_time_keeps_addresses_unique B ops :
  forallb oneAtATime ops = true ->
  uniqueAddresses (wallet (runOps B emptyClient ops)).
Proof.
  assert (G : forall ops wc, forallb oneAtATime ops = true -> uniqueAddresses (wallet wc) ->
                uniqueAddresses (wallet (runOps B wc ops))).
  { clear ops. induction ops as [|op rest IH]; intros wc Hops Hw; [exact Hw|].
    cbn in Hops. apply andb_true_iff in Hops. destruct Hops as (Hop & Hrest).
    cbn. apply IH; [assumption|]. now apply runOp_unique. }
  intros Hops. apply G; [assumption|]. apply uniqueAddresses_short. cbn. lia.
Qed.

Lemma one_at_a_time_keeps_addresses_unique_witness :
  uniqueAddresses
    (wallet (runOps Toy.backend emptyClient
               [OpAddPrivateKeys ["k1"]; OpAddPrivateKeys ["k1"];
                OpAddAccounts [Toy.bobBoth]; OpSetBaseAccount Toy.alice;
                OpRemoveAddresses ["Abob"]])).
Proof.
  apply (one_at_a_time_keeps_addresses_unique Toy.backend). reflexivity.
Defined.

Section Batches.

Variable B : Backend.

(** Every key of a batch that went through has its account in the wallet
    already or among the accounts collected. *)
Lemma addPrivateKeysLoop_covers keys : forall acc wc added,
  fst (addPrivateKeysLoop B keys acc wc) = inr added ->
  forall k, In k keys ->
  exists a, accountOfPrivateKey B k = inr a /\
    ((exists m, findByAddress (wallet wc) (address a) = inr (Some m)) \/ In a added).
Proof.
  induction keys as [|k0 rest IH]; intros acc wc added H k Hin; [destruct Hin|].
  cbn [addPrivateKeysLoop] in H. unfold bind at 1 in H. unfold lift at 1 in H.
  destruct (accountOfPrivateKey B k0) as [e|created] eqn:Er; [discriminate|].
  unfold bind at 1 in H. rewrite getWalletAccountByAddress_run in H.
  destruct (findByAddress (wallet wc) (address created)) as [e|[m|]] eqn:Ef; [discriminate| |].
  - destruct Hin as [<-|Hin]; [|eapply IH; eauto].
    exists created. split; [assumption|]. left. eauto.
  - destruct Hin as [<-|Hin]; [|eapply IH; eauto].
    exists created. split; [assumption|]. right.
    destruct (addPrivateKeysLoop_result B _ _ _ _ H) as (new & -> & _).
    apply in_or_app. left. apply in_or_app. right. now left.
Qed.

Lemma addPrivateKeysLoop_throws keys bad e : forall acc wc,
  In bad keys -> accountOfPrivateKey B bad = inl e ->
  exists e', fst (addPrivateKeysLoop B keys acc wc) = inl e'.
Proof.
  induction keys as [|k rest IH]; intros acc wc Hin Hbad; [destruct Hin|].
  cbn [addPrivateKeysLoop]. unfold bind at 1. unfold lift at 1.
  destruct (accountOfPrivateKey B k) as [e0|created] eqn:Er; [eexists; reflexivity|].
  destruct Hin as [->|Hin]; [congruence|].
  unfold bind at 1. rewrite getWalletAccountByAddress_run.
  destruct (findByAddress (wallet wc) (address created)) as [e1|[m|]];
    [eexists; reflexivity| |]; apply IH; assumption.
Qed.

End Batches.

(** After [addPrivateKeysToWallet] returned, each key of the batch is in
    the wallet: the lookup by the address derived from the key finds a
    member with that address, the one just added or the one that was
    there. *)
Theorem added_keys_are_found B keys wc added wc' k :
  addPrivateKeysToWallet B keys wc = (inr added, wc') ->
  In k keys ->
  exists a m,
    accountOfPrivateKey B k = inr a /\
    getWalletAccountByAddress (address a) wc' = (inr (Some m), wc') /\
    sameAddress m a.
Proof.
  intros H Hin.
  destruct (addPrivateKeysToWallet_run B keys wc) as [(e & He)|(added' & Hr & _ & Hloop)];
    rewrite H in *; [discriminate|].
  injection Hr as Hadd Hwc. subst added' wc'.
  destruct (addPrivateKeysLoop_covers B _ _ _ _ Hloop k Hin) as (a & Ha & Hcase).
  destruct (accountOfPrivateKey_address B _ _ Ha) as (y & Hy).
  exists a. rewrite getWalletAccountByAddress_run. cbn [wallet].
  destruct Hcase as [(m & Hm)|Hadded].
  - exists m. split; [assumption|]. split.
    + now rewrite (findByAddress_app_found _ _ _ _ Hm).
    + destruct (findByAddress_some _ _ _ Hm) as (_ & x & y' & Hx & Hy' & Hxy).
      exists x, y'. repeat split; auto; congruence.
  - destruct (addPrivateKeysLoop_result B _ _ _ _ Hloop) as (new & Hnew & Hall).
    cbn in Hnew. subst new.
    destruct (Hall a Hadded) as (_ & Hnone).
    rewrite (findByAddress_app_none _ _ _ Hnone), Hy.
    destruct (findByAddress_member added a y) as (m & Hm & Hs); auto.
    + intros m Hm. destruct (Hall m Hm) as ((k' & _ & Hk') & _).
      exact (accountOfPrivateKey_address B _ _ Hk').
    + exists m. rewrite Hm. auto.
Qed.

Lemma added_keys_are_found_witness :
  exists a m,
    accountOfPrivateKey Toy.backend "k1" = inr a /\
    getWalletAccountByAddress (address a)
      {| wallet := [Toy.bobStored; Toy.aliceStored]; baseAccount := None |} =
      (inr (Some m), {| wallet := [Toy.bobStored; Toy.aliceStored]; baseAccount := None |}) /\
    sameAddress m a.
Proof.
  apply (added_keys_are_found Toy.backend ["k1"]
           {| wallet := [Toy.bobStored]; baseAccount := None |} [Toy.aliceStored]).
  - reflexivity.
  - simpl. left. reflexivity.
Defined.

(** One key of the batch that does not decode, or has no public key,
    makes [addPrivateKeysToWallet] throw and leaves the wallet client as
    it was: the keys before it are not added either. *)
Theorem failed_key_batch_adds_nothing B wc keys bad e :
  In bad keys ->
  accountOfPrivateKey B bad = inl e ->
  exists e', addPrivateKeysToWallet B keys wc = (inl e', wc).
Proof.
  intros Hin Hbad.
  destruct (addPrivateKeysToWallet_run B keys wc) as [He|(added & _ & _ & Hloop)];
    [exact He|].
  destruct (addPrivateKeysLoop_throws B keys bad e [] wc Hin Hbad) as (e' & He').
  rewrite Hloop in He'. discriminate.
Qed.

Lemma failed_key_batch_adds_nothing_witness :
  exists e',
    addPrivateKeysToWallet Toy.backend ["k1"; "0OIl"] emptyClient = (inl e', emptyClient).
Proof.
  apply (failed_key_batch_adds_nothing Toy.backend emptyClient ["k1"; "0OIl"] "0OIl"
           (LibraryError "Non-base58 character")).
  - simpl. right. left. reflexivity.
  - reflexivity.
Defined.

(** A [setBaseAccount] that throws leaves the wallet and the base account
    as they were. *)
Theorem setBaseAccount_throw_state B account wc e wc' :
  setBaseAccount B account wc = (inl e, wc') -> wc' = wc.
Proof.
  rewrite setBaseAccount_run.
  destruct (findByAddress (wallet wc) (address account)) as [e0|[m|]].
  - intros H. now injection H.
  - discriminate.
  - destruct (addAccountsToWallet B [account] wc) as [[e1|added] wc1] eqn:Ea; [|discriminate].
    intros H. injection H as _ <-. exact (addAccountsToWallet_throw_state _ _ _ _ _ Ea).
Qed.

Lemma setBaseAccount_throw_state_witness :
  snd (setBaseAccount Toy.backend Toy.mallory
         {| wallet := [Toy.aliceStored]; baseAccount := Some Toy.aliceStored |}) =
  {| wallet := [Toy.aliceStored]; baseAccount := Some Toy.aliceStored |}.
Proof.
  apply (setBaseAccount_throw_state Toy.backend Toy.mallory
           {| wallet := [Toy.aliceStored]; baseAccount := Some Toy.aliceStored |} TypeError).
  reflexivity.
Defined.

Lemma spliceFirst_absent w a :
  (forall m, In m w -> address m <> Some a) -> spliceFirst w a = w.
Proof.
  induction w as [|b rest IH]; intros H; [reflexivity|].
  cbn. assert (Hrest : spliceFirst rest a = rest).
  { apply IH. intros m Hm. apply H. now right. }
  specialize (H b (or_introl eq_refl)).
  destruct (address b) as [x|]; [|now rewrite Hrest].
  destruct (String.eqb_spec x a) as [->|_]; [congruence|now rewrite Hrest].
Qed.

(** Removal compares addresses exactly: listing addresses that no member
    has character for character changes nothing, also when one of them
    differs from a member's address only in case. *)
Theorem removing_absent_addresses_changes_nothing addresses wc :
  (forall a m, In a addresses -> In m (wallet wc) -> address m <> Some a) ->
  removeAddressesFromWallet addresses wc = (inr tt, wc).
Proof.
  intros H. unfold removeAddressesFromWallet. f_equal.
  destruct wc as [w base]. cbn in *. f_equal.
  induction addresses as [|a rest IH]; [reflexivity|].
  cbn. rewrite spliceFirst_absent by (intros m Hm; apply (H a); [now left|assumption]).
  apply IH. intros a' m Ha'. apply H. now right.
Qed.

Lemma removing_absent_addresses_changes_nothing_witness :
  removeAddressesFromWallet
    [match address Toy.aliceStored with Some a => toLowerCase a | None => EmptyString end]
    {| wallet := [Toy.aliceStored]; baseAccount := None |} =
  (inr tt, {| wallet := [Toy.aliceStored]; baseAccount := None |}).
Proof.
  apply removing_absent_addresses_changes_nothing.
  intros a m [<-|[]] [<-|[]]. simpl. discriminate.
Defined.

Lemma findByAddress_no_match l a :
  addressed l ->
  (forall m x, In m l -> address m = Some x -> toLowerCase x <> toLowerCase a) ->
  findByAddress l (Some a) = inr None.
Proof.
  induction l as [|b rest IH]; intros Hl Hno; [reflexivity|].
  cbn. destruct (Hl b (or_introl eq_refl)) as (x & Hx). rewrite Hx.
  destruct (String.eqb_spec (toLowerCase x) (toLowerCase a)) as [Heq|_].
  - exfalso. exact (Hno b x (or_introl eq_refl) Hx Heq).
  - apply IH.
    + intros m Hm. apply Hl. now right.
    + intros m y Hm. apply Hno. now right.
Qed.

Lemma uniqueAddresses_tail b rest : uniqueAddresses (b :: rest) -> uniqueAddresses rest.
Proof.
  intros H i j x y Hi Hj Hs.
  assert (S i = S j) by (apply (H (S i) (S j) x y); assumption). lia.
Qed.

Lemma spliceFirst_member w a :
  uniqueAddresses w -> addressed w ->
  (exists m, In m w /\ address m = Some a) ->
  findByAddress (spliceFirst w a) (Some a) = inr None /\
  S (List.length (spliceFirst w a)) = List.length w.
Proof.
  induction w as [|b rest IH]; intros Hu Hl (m & Hin & Hm); [destruct Hin|].
  cbn [spliceFirst]. destruct (Hl b (or_introl eq_refl)) as (x & Hx). rewrite Hx.
  assert (Hlrest : addressed rest) by (intros m' Hm'; apply Hl; now right).
  destruct (String.eqb_spec x a) as [->|Hne].
  - split; [|reflexivity].
    apply findByAddress_no_match; [assumption|].
    intros m' y Hm' Hy Heq.
    destruct (In_nth_error _ _ Hm') as (j & Hj).
    assert (0 = S j); [|discriminate].
    apply (Hu 0 (S j) b m'); [reflexivity|exact Hj|]. exists a, y. auto.
  - destruct Hin as [<-|Hin]; [congruence|].
    destruct (IH (uniqueAddresses_tail _ _ Hu) Hlrest (ex_intro _ m (conj Hin Hm)))
      as (Hfind & Hlen).
    split; [|cbn; now rewrite Hlen].
    cbn. rewrite Hx.
    destruct (String.eqb_spec (toLowerCase x) (toLowerCase a)) as [Heq|_]; [|exact Hfind].
    exfalso. destruct (In_nth_error _ _ Hin) as (j & Hj).
    assert (0 = S j); [|discriminate].
    apply (Hu 0 (S j) b m); [reflexivity|exact Hj|]. exists x, a. auto.
Qed.

(** In a wallet without duplicate addresses, removing the exact address
    of a member takes one account out, and a lookup by that address then
    finds nothing. *)
Theorem removed_address_is_not_found a wc :
  uniqueAddresses (wallet wc) ->
  addressed (wallet wc) ->
  (exists m, In m (wallet wc) /\ address m = Some a) ->
  fst (getWalletAccountByAddress (Some a) (snd (removeAddressesFromWallet [a] wc)))
    = inr None /\
  S (List.length (wallet (snd (removeAddressesFromWallet [a] wc)))) =
    List.length (wallet wc).
Proof.
  intros Hu Hl Hm. rewrite getWalletAccountByAddress_run. cbn.
  now apply spliceFirst_member.
Qed.

Lemma removed_address_is_not_found_witness :
  fst (getWalletAccountByAddress (Some "Aa")
         (snd (removeAddressesFromWallet ["Aa"]
                 {| wallet := [{| address := Some "Aa"; publicKey := Some "p";
                                  privateKey := Some "k"; randomEntropy := None |}];
                    baseAccount := None |})))
    = inr None /\
  S (List.length
       (wallet (snd (removeAddressesFromWallet ["Aa"]
                 {| wallet := [{| address := Some "Aa"; publicKey := Some "p";
                                  privateKey := Some "k"; randomEntropy := None |}];
                    baseAccount := None |})))) = 1.
Proof.
  apply (removed_address_is_not_found "Aa"
           {| wallet := [{| address := Some "Aa"; publicKey := Some "p";
                            privateKey := Some "k"; randomEntropy := None |}];
              baseAccount := None |}).
  - apply uniqueAddresses_short. simpl. lia.
  - intros m [<-|[]]. simpl. eauto.
  - eexists. split; [simpl; left; reflexivity|reflexivity].
Defined.

(** An account that passed the checks of [addAccountsToWallet] passes
    them again and comes out unchanged: what the wallet stores can be
    given back to it. *)
Theorem reconcile_idempotent B account created :
  reconcile B account = inr created -> reconcile B created = inr created.
Proof.
  unfold reconcile at 1.
  destruct (andb (negb (truthy (randomEntropy account)))
                 (negb (truthy (privateKey account)))) eqn:Echeck; [discriminate|].
  destruct (resolvePrivateKey B account) as [e|resolved] eqn:Eres; [discriminate|].
  destruct (decode B resolved) as [e|d] eqn:Ed; [discriminate|].
  destruct (lib (getPublicKey B d)) as [e|pk] eqn:Epk; [discriminate|].
  match goal with
  | |- context [if ?c then inl PublicKeyMismatch else _] => destruct c; [discriminate|]
  end.
  match goal with
  | |- context [if ?c then inl AddressMismatch else _] => destruct c; [discriminate|]
  end.
  intros H. injection H as <-.
  assert (Hres : resolvePrivateKey B
                   {| address := Some (deriveAddress B pk); publicKey := Some (base58Encode B pk);
                      privateKey := resolved; randomEntropy := randomEntropy account |}
                 = inr resolved /\
                 andb (negb (truthy (randomEntropy account))) (negb (truthy resolved)) = false).
  { unfold resolvePrivateKey in *. cbn [Wallet.randomEntropy Wallet.privateKey].
    destruct (truthy (randomEntropy account)) eqn:Et.
    - split; [|reflexivity].
      destruct (decode B (randomEntropy account)) as [e|eb]; [discriminate|].
      destruct (lib (hashToPrivateKey B eb)) as [e|sk]; [discriminate|].
      injection Eres as <-. f_equal. unfold orElse.
      destruct (truthy (Some (base58Encode B sk))); reflexivity.
    - injection Eres as <-. unfold orElse in *. cbn [truthy] in *.
      split; [reflexivity|]. exact Echeck. }
  destruct Hres as (Hres & Hcheck).
  unfold reconcile. cbn [Wallet.randomEntropy Wallet.privateKey Wallet.publicKey Wallet.address].
  rewrite Hcheck, Hres, Ed, Epk, !String.eqb_refl. cbn [negb].
  now rewrite !andb_false_r.
Qed.

Lemma reconcile_idempotent_witness :
  reconcile Toy.backend Toy.bobStored = inr Toy.bobStored.
Proof.
  apply (reconcile_idempotent Toy.backend Toy.bobBoth). reflexivity.
Defined.

(** An account made by [getAccountFromPrivateKey] from a non-empty key
    passes the checks of [addAccountsToWallet] unchanged, so adding it as
    an account or adding its key with [addPrivateKeysToWallet] does the
    same to the wallet. *)
Theorem account_from_private_key_is_accepted B k a wc :
  getAccountFromPrivateKey B k = inr a ->
  k <> EmptyString ->
  reconcile B a = inr a /\
  addAccountsToWallet B [a] wc = addPrivateKeysToWallet B [k] wc.
Proof.
  intros Ha Hk.
  assert (Hacc : accountOfPrivateKey B k = inr a).
  { unfold getAccountFromPrivateKey in Ha. unfold accountOfPrivateKey.
    destruct (lib (base58Decode B k)); [discriminate|].
    destruct (lib (getPublicKey B _)); [discriminate|].
    injection Ha as <-. reflexivity. }
  assert (Hrec : reconcile B a = inr a).
  { unfold getAccountFromPrivateKey in Ha.
    destruct (lib (base58Decode B k)) as [e|sk] eqn:Ed; [discriminate|].
    destruct (lib (getPublicKey B sk)) as [e|pk] eqn:Ep; [discriminate|].
    injection Ha as <-.
    unfold reconcile, resolvePrivateKey, orElse, decode.
    cbn [Wallet.randomEntropy Wallet.privateKey Wallet.publicKey Wallet.address truthy].
    destruct (String.eqb_spec k EmptyString) as [->|_]; [congruence|].
    cbn [negb andb]. rewrite Ed, Ep, !String.eqb_refl. cbn [negb].
    now rewrite !andb_false_r. }
  split; [exact Hrec|].
  unfold addAccountsToWallet, addPrivateKeysToWallet.
  cbn [List.length Nat.ltb Nat.leb MAX_WALLET_ACCOUNTS].
  unfold addAccountsLoop, addPrivateKeysLoop, bind, lift. now rewrite Hrec, Hacc.
Qed.

Lemma account_from_private_key_is_accepted_witness :
  reconcile Toy.backend Toy.aliceStored = inr Toy.aliceStored /\
  addAccountsToWallet Toy.backend [Toy.aliceStored] emptyClient =
  addPrivateKeysToWallet Toy.backend ["k1"] emptyClient.
Proof.
  apply (account_from_private_key_is_accepted Toy.backend "k1" Toy.aliceStored emptyClient).
  - reflexivity.
  - discriminate.
Defined.

Lemma entropy_account_reconciles B e eb sk a :
  base58Decode B e = inr eb ->
  hashToPrivateKey B eb = inr sk ->
  base58Decode B (base58Encode B sk) = inr sk ->
  e <> EmptyString ->
  getAccountFromEntropy B e = inr a ->
  reconcile B a = inr a.
Proof.
  intros Hd Hh Hround He Ha.
  unfold getAccountFromEntropy in Ha. rewrite Hd in Ha. cbn [lib] in Ha.
  rewrite Hh in Ha. cbn [lib] in Ha.
  destruct (lib (getPublicKey B sk)) as [e0|pk] eqn:Ep; [discriminate|].
  injection Ha as <-.
  unfold reconcile, resolvePrivateKey, orElse, decode.
  cbn [Wallet.randomEntropy Wallet.privateKey Wallet.publicKey Wallet.address].
  assert (Ht : truthy (Some e) = true).
  { cbn. now destruct (String.eqb_spec e EmptyString). }
  rewrite Ht. cbn [negb andb]. rewrite Hd. cbn [lib]. rewrite Hh. cbn [lib].
  destruct (truthy (Some (base58Encode B sk)));
    rewrite Hround; cbn [lib]; rewrite Ep, !String.eqb_refl; cbn [negb];
    now rewrite !andb_false_r.
Qed.

(** When the decoder gives back the private key that [getAccountFromEntropy]
    encoded, the account it makes from a non-empty entropy passes the
    checks of [addAccountsToWallet] unchanged, and
    [getAccountFromPrivateKey] on its private key gives the same address
    and public key. *)
Theorem account_from_entropy_is_consistent B e eb sk a :
  base58Decode B e = inr eb ->
  hashToPrivateKey B eb = inr sk ->
  base58Decode B (base58Encode B sk) = inr sk ->
  e <> EmptyString ->
  getAccountFromEntropy B e = inr a ->
  reconcile B a = inr a /\
  exists a',
    getAccountFromPrivateKey B (base58Encode B sk) = inr a' /\
    address a' = address a /\ publicKey a' = publicKey a /\
    privateKey a' = privateKey a.
Proof.
  intros Hd Hh Hround He Ha.
  split; [exact (entropy_account_reconciles _ _ _ _ _ Hd Hh Hround He Ha)|].
  unfold getAccountFromEntropy in Ha. rewrite Hd in Ha. cbn [lib] in Ha.
  rewrite Hh in Ha. cbn [lib] in Ha.
  destruct (lib (getPublicKey B sk)) as [e0|pk] eqn:Ep; [discriminate|].
  injection Ha as <-.
  unfold getAccountFromPrivateKey. rewrite Hround. cbn [lib]. rewrite Ep.
  eexists. split; [reflexivity|]. repeat split.
Qed.

Lemma account_from_entropy_is_consistent_witness :
  reconcile Toy.backend Toy.bobStored = inr Toy.bobStored /\
  exists a',
    getAccountFromPrivateKey Toy.backend (base58Encode Toy.backend (list_byte_of_string "1e"))
      = inr a' /\
    address a' = address Toy.bobStored /\ publicKey a' = publicKey Toy.bobStored /\
    privateKey a' = privateKey Toy.bobStored.
Proof.
  apply (account_from_entropy_is_consistent Toy.backend "e1"
           (list_byte_of_string "e1") (list_byte_of_string "1e") Toy.bobStored).
  - reflexivity.
  - reflexivity.
  - reflexivity.
  - discriminate.
  - reflexivity.
Defined.

Lemma addPrivateKeysToWallet_skips_members_witness :
  wallet {| wallet := [Toy.bobStored; Toy.aliceStored]; baseAccount := None |} =
    wallet {| wallet := [Toy.bobStored]; baseAccount := None |} ++ [Toy.aliceStored] /\
  forall a m, In a [Toy.aliceStored] ->
    In m (wallet {| wallet := [Toy.bobStored]; baseAccount := None |}) ->
    ~ sameAddress m a.
Proof.
  apply (addPrivateKeysToWallet_skips_members Toy.backend ["1e"; "k1"]
           {| wallet := [Toy.bobStored]; baseAccount := None |}).
  reflexivity.
Defined.

(** A wallet built with a base account holds the account as the checks of
    [addAccountsToWallet] rebuild it, as its only member and as its base
    account; the constructor throws exactly when those checks do. *)
Theorem new_wallet_with_base_account B account :
  newWalletClient B (Some account) =
  match reconcile B account with
  | inl e => inl e
  | inr created => inr {| wallet := [created]; baseAccount := Some created |}
  end.
Proof.
  unfold newWalletClient. rewrite setBaseAccount_run. cbn [wallet emptyClient findByAddress].
  unfold addAccountsToWallet. cbn [List.length Nat.ltb Nat.leb MAX_WALLET_ACCOUNTS].
  unfold addAccountsLoop, bind, lift.
  destruct (reconcile B account) as [e|created]; [reflexivity|].
  rewrite getWalletAccountByAddress_run. cbn [wallet emptyClient findByAddress].
  reflexivity.
Qed.

(** After a call of [addPrivateKeysToWallet] that added the one account
    [a], [signMessage] with the address of [a] signs with [a]: it gives
    what [walletSignMessage] gives for [a]. *)
Theorem sign_with_added_account B keys wc a wc' addr data :
  addPrivateKeysToWallet B keys wc = (inr [a], wc') ->
  address a = Some addr ->
  signMessage B data addr wc' =
  match walletSignMessage B data a with
  | inl e => inl (Raised e)
  | inr s => inr s
  end.
Proof.
  intros H Haddr.
  destruct (addPrivateKeysToWallet_run B keys wc) as [(e & He)|(added' & Hr & _ & Hloop)];
    rewrite H in *; [discriminate|].
  injection Hr as Hadd Hwc. subst added' wc'.
  destruct (addPrivateKeysLoop_result B _ _ _ _ Hloop) as (new & Hnew & Hall).
  cbn in Hnew. subst new.
  destruct (Hall a (or_introl eq_refl)) as (_ & Hnone).
  unfold signMessage. rewrite getWalletAccountByAddress_run. cbn [fst wallet].
  rewrite <- Haddr, (findByAddress_app_none _ _ _ Hnone).
  cbn [findByAddress]. rewrite Haddr, String.eqb_refl. reflexivity.
Qed.

Lemma sign_with_added_account_witness :
  signMessage Toy.backend (inl "hello")
    (match address Toy.aliceStored with Some a => a | None => EmptyString end)
    {| wallet := [Toy.bobStored; Toy.aliceStored]; baseAccount := None |} =
  match walletSignMessage Toy.backend (inl "hello") Toy.aliceStored with
  | inl e => inl (Raised e)
  | inr s => inr s
  end.
Proof.
  apply (sign_with_added_account Toy.backend ["k1"]
           {| wallet := [Toy.bobStored]; baseAccount := None |} Toy.aliceStored).
  - reflexivity.
  - reflexivity.
Defined.

End WalletMore.

Module ClientFacts.
Import Wallet WalletFacts Client.

Local Notation "x <~ c ;; k" := (rbind c (fun x => k))
  (at level 61, c at next level, right associativity).

(** A signature that [walletSignMessage] returns has 64 bytes and verifies
    under the signer's decoded public key. *)
Lemma walletSignMessage_verified B data signer s :
  walletSignMessage B data signer = inr s ->
  exists pk sig,
    decode B (publicKey signer) = inr pk /\
    List.length sig = 64 /\
    verifySync B sig (hashBlake3 B (bufferFrom data)) pk = inr true /\
    base58Encoded s = base58Encode B sig.
Proof.
  unfold walletSignMessage.
  destruct (truthy (privateKey signer)); cbn [negb]; [|discriminate].
  destruct (truthy (publicKey signer)); cbn [negb]; [|discriminate].
  destruct (decode B (privateKey signer)) as [e|sk]; [discriminate|].
  destruct (lib (signSync B _ sk)) as [e|sig]; [discriminate|].
  destruct (Nat.eqb_spec (List.length sig) 64) as [Hlen|_]; cbn [negb]; [|discriminate].
  destruct (decode B (publicKey signer)) as [e|pk]; [discriminate|].
  destruct (verifySync B sig _ pk) as [e|[|]] eqn:Ev; cbn [lib negb]; try discriminate.
  intros H. injection H as <-. exists pk, sig. auto.
Qed.

Section Sending.

Variable B : Backend.
Variable number : Type.
Variable toString : number -> string.
Variables IAddressInfo IContractReadOperationData : Type.
Variable JsValue : Type.
Variable ofText : option string -> JsValue.
Variable fieldOf : IAddressInfo -> string -> option JsValue.
Variable clientConfig : IClientConfig.
Variable node : Node number IAddressInfo IContractReadOperationData.
Variable compactBytesForOperation :
  OperationData number -> OperationTypeId -> IAccount -> nat -> string + bytes.
Variable base64Decode : string -> bytes.

Local Abbreviation sentFor :=
  (sentFor B number IAddressInfo IContractReadOperationData clientConfig node
     compactBytesForOperation).

(** The steps the sending methods share once the sender and the expiry
    period are known: an operation is sent only by the last step, after
    the compaction and the signature went through. *)
Lemma tail_events (compacted : string + bytes) sender
  (final : ISignature -> R number (list string)) retry data :
  In (OperationsSent retry data)
     (snd (bytesCompact <~ local (lib compacted) ;;
           signature <~ local (walletSignMessage B (inr bytesCompact) sender) ;;
           final signature)) ->
  exists bytesCompact s,
    compacted = inr bytesCompact /\
    walletSignMessage B (inr bytesCompact) sender = inr s /\
    In (OperationsSent retry data) (snd (final s)) /\
    snd (bytesCompact <~ local (lib compacted) ;;
         signature <~ local (walletSignMessage B (inr bytesCompact) sender) ;;
         final signature) = snd (final s).
Proof.
  unfold rbind, local. destruct compacted as [ex|bytesCompact]; cbn [lib fst snd app].
  - intros [].
  - destruct (walletSignMessage B (inr bytesCompact) sender) as [e|s] eqn:Es;
      cbn [fst snd app].
    + intros [].
    + intros H. exists bytesCompact, s. auto.
Qed.

Lemma signedBy_intro sender bytesCompact s (data : OperationRequest number) :
  walletSignMessage B (inr bytesCompact) sender = inr s ->
  creator_public_key data = publicKey sender ->
  signature data = base58Encoded s ->
  signedBy B sender bytesCompact data.
Proof.
  intros Hs Hk Hsig. split; [exact Hk|].
  destruct (walletSignMessage_verified _ _ _ _ Hs) as (pk & sg & Hpk & Hlen & Hv & Henc).
  exists pk, sg. repeat split; auto. congruence.
Qed.

(** An operation that one of the wallet's sending methods hands to the
    node was signed by the sender (the executor, or else the base account)
    over the compacted bytes, with a 64-byte signature that verified under
    the sender's public key, and expires at the node's next period plus
    the configured offset; it is the method's second and last remote call,
    after the status query, and does not go through the retry helper. *)
Theorem wallet_sends_only_signed_operations executor wc :
  (forall txData retry data,
     In (OperationsSent retry data)
        (snd (sendTransaction B number toString IAddressInfo IContractReadOperationData
                clientConfig node compactBytesForOperation txData executor wc)) ->
     retry = false /\
     sentFor (TxData txData) OpTransaction executor wc data /\
     op data = Transaction (toString (tx_amount txData)) (recipientAddress txData) /\
     snd (sendTransaction B number toString IAddressInfo IContractReadOperationData
            clientConfig node compactBytesForOperation txData executor wc)
       = [NodeStatusQueried; OperationsSent false data]) /\
  (forall txData retry data,
     In (OperationsSent retry data)
        (snd (buyRolls B number toString IAddressInfo IContractReadOperationData
                clientConfig node compactBytesForOperation txData executor wc)) ->
     retry = false /\
     sentFor (RollsData txData) OpRollBuy executor wc data /\
     op data = RollBuy (rolls_amount txData) /\
     snd (buyRolls B number toString IAddressInfo IContractReadOperationData
            clientConfig node compactBytesForOperation txData executor wc)
       = [NodeStatusQueried; OperationsSent false data]) /\
  (forall txData retry data,
     In (OperationsSent retry data)
        (snd (sellRolls B number toString IAddressInfo IContractReadOperationData
                clientConfig node compactBytesForOperation txData executor wc)) ->
     retry = false /\
     sentFor (RollsData txData) OpRollSell executor wc data /\
     op data = RollSell (rolls_amount txData) /\
     snd (sellRolls B number toString IAddressInfo IContractReadOperationData
            clientConfig node compactBytesForOperation txData executor wc)
       = [NodeStatusQueried; OperationsSent false data]).
Proof.
  assert (G : forall opData opType (mk : nat -> ISignature -> OperationRequest number)
                retry data,
            (forall p s, expire_period (mk p s) = p /\
                         creator_public_key (mk p s) =
                           match (match executor with Some a => Some a | None => baseAccount wc end)
                           with Some sender => publicKey sender | None => None end /\
                         signature (mk p s) = base58Encoded s) ->
            In (OperationsSent retry data)
               (snd (sender <~ senderOf executor wc ;;
                     nodeStatusInfo <~ remote NodeStatusQueried (getNodeStatus node) ;;
                     bytesCompact <~ local (lib (compactBytesForOperation opData opType sender
                        (next_slot_period nodeStatusInfo + periodOffset clientConfig))) ;;
                     signature <~ local (walletSignMessage B (inr bytesCompact) sender) ;;
                     remote (OperationsSent false
                               (mk (next_slot_period nodeStatusInfo + periodOffset clientConfig)
                                   signature))
                            (sendOperations node false
                               (mk (next_slot_period nodeStatusInfo + periodOffset clientConfig)
                                   signature)))) ->
            retry = false /\
            sentFor opData opType executor wc data /\
            (exists p s, data = mk p s) /\
            snd (sender <~ senderOf executor wc ;;
                 nodeStatusInfo <~ remote NodeStatusQueried (getNodeStatus node) ;;
                 bytesCompact <~ local (lib (compactBytesForOperation opData opType sender
                    (next_slot_period nodeStatusInfo + periodOffset clientConfig))) ;;
                 signature <~ local (walletSignMessage B (inr bytesCompact) sender) ;;
                 remote (OperationsSent false
                           (mk (next_slot_period nodeStatusInfo + periodOffset clientConfig)
                               signature))
                        (sendOperations node false
                           (mk (next_slot_period nodeStatusInfo + periodOffset clientConfig)
                               signature)))
              = [NodeStatusQueried; OperationsSent false data]).
  { intros opData opType mk retry data Hmk. unfold senderOf, Client.sentFor.
    destruct (match executor with Some a => Some a | None => baseAccount wc end)
      as [sender|] eqn:Esender; [|intros []].
    unfold rbind at 1. unfold rret at 1 2. cbn [fst snd app].
    unfold rbind at 1. unfold remote at 1.
    destruct (getNodeStatus node) as [ex|status] eqn:Estatus; cbn [fst snd app].
    { intros [H|[]]. discriminate H. }
    intros [H|H]; [discriminate H|].
    destruct (tail_events _ _ _ _ _ H) as (bytesCompact & s & Hc & Hs & Hin & _).
    cbn [remote snd] in Hin. destruct Hin as [Hin|[]].
    injection Hin as <- <-.
    destruct (Hmk (next_slot_period status + periodOffset clientConfig) s) as (Hp & Hk & Hsig).
    split; [reflexivity|]. split; [|split; [eauto|]].
    - exists sender, status, bytesCompact.
      split; [reflexivity|]. split; [reflexivity|]. split; [exact Hp|].
      split; [now rewrite Hp|].
      apply (signedBy_intro _ _ s); auto.
    - unfold rbind, remote, local, rret. cbn [fst snd app]. rewrite Hc.
      cbn [lib fst snd app]. rewrite Hs. reflexivity. }
  split; [|split]; intros txData retry data H.
  - destruct (G (TxData txData) OpTransaction
               (fun p s => {| expire_period := p; fee := toString (tx_fee txData);
                              op := Transaction (toString (tx_amount txData))
                                      (recipientAddress txData);
                              creator_public_key :=
                                match (match executor with Some a => Some a
                                       | None => baseAccount wc end)
                                with Some sender => publicKey sender | None => None end;
                              signature := base58Encoded s |}) retry data)
      as (Hr & Hsent & (p & s & Hdata) & Hlog).
    + intros p s. repeat split.
    + revert H. unfold sendTransaction, senderOf.
      destruct (match executor with Some a => Some a | None => baseAccount wc end);
        exact (fun H => H).
    + split; [exact Hr|]. split; [exact Hsent|]. split; [now rewrite Hdata|].
      rewrite <- Hlog. unfold sendTransaction, senderOf.
      destruct (match executor with Some a => Some a | None => baseAccount wc end);
        reflexivity.
  - destruct (G (RollsData txData) OpRollBuy
               (fun p s => {| expire_period := p; fee := toString (rolls_fee txData);
                              op := RollBuy (rolls_amount txData);
                              creator_public_key :=
                                match (match executor with Some a => Some a
                                       | None => baseAccount wc end)
                                with Some sender => publicKey sender | None => None end;
                              signature := base58Encoded s |}) retry data)
      as (Hr & Hsent & (p & s & Hdata) & Hlog).
    + intros p s. repeat split.
    + revert H. unfold buyRolls, senderOf.
      destruct (match executor with Some a => Some a | None => baseAccount wc end);
        exact (fun H => H).
    + split; [exact Hr|]. split; [exact Hsent|]. split; [now rewrite Hdata|].
      rewrite <- Hlog. unfold buyRolls, senderOf.
      destruct (match executor with Some a => Some a | None => baseAccount wc end);
        reflexivity.
  - destruct (G (RollsData txData) OpRollSell
               (fun p s => {| expire_period := p; fee := toString (rolls_fee txData);
                              op := RollSell (rolls_amount txData);
                              creator_public_key :=
                                match (match executor with Some a => Some a
                                       | None => baseAccount wc end)
                                with Some sender => publicKey sender | None => None end;
                              signature := base58Encoded s |}) retry data)
      as (Hr & Hsent & (p & s & Hdata) & Hlog).
    + intros p s. repeat split.
    + revert H. unfold sellRolls, senderOf.
      destruct (match executor with Some a => Some a | None => baseAccount wc end);
        exact (fun H => H).
    + split; [exact Hr|]. split; [exact Hsent|]. split; [now rewrite Hdata|].
      rewrite <- Hlog. unfold sellRolls, senderOf.
      destruct (match executor with Some a => Some a | None => baseAccount wc end);
        reflexivity.
Qed.

Lemma rbind_remote {A C} ev (outcome : string + A) (k : A -> R number C) :
  rbind (remote ev outcome) k =
  match outcome with
  | inl ex => (inl (Rejected ex), [ev])
  | inr a => (fst (k a), ev :: snd (k a))
  end.
Proof. destruct outcome; reflexivity. Qed.

Lemma rbind_local {A C} (r : Thrown + A) (k : A -> R number C) :
  rbind (local r) k =
  match r with
  | inl e => (inl (Raised e), [])
  | inr a => (fst (k a), snd (k a))
  end.
Proof. destruct r; reflexivity. Qed.

Lemma rbind_senderOf {C} executor wc (k : IAccount -> R number C) :
  rbind (senderOf executor wc) k =
  match (match executor with Some a => Some a | None => baseAccount wc end) with
  | None => (inl NoTxSender, [])
  | Some sender => (fst (k sender), snd (k sender))
  end.
Proof.
  unfold senderOf.
  destruct (match executor with Some a => Some a | None => baseAccount wc end); reflexivity.
Qed.

(** A step that only warns, or does nothing, lets the rest run. *)
Lemma rbind_quiet {C} (c : R number unit) (k : unit -> R number C) :
  fst c = inr tt ->
  fst (rbind c k) = fst (k tt) /\ snd (rbind c k) = snd c ++ snd (k tt).
Proof. destruct c as [[e|[]] log]; cbn; [discriminate|auto]. Qed.

Lemma tail_result (compacted : string + bytes) sender
  (final : ISignature -> R number (list string)) :
  fst (bytesCompact <~ local (lib compacted) ;;
       signature <~ local (walletSignMessage B (inr bytesCompact) sender) ;;
       final signature) = inl ContractDataRequired ->
  exists bytesCompact s,
    compacted = inr bytesCompact /\
    walletSignMessage B (inr bytesCompact) sender = inr s /\
    fst (final s) = inl ContractDataRequired /\
    snd (bytesCompact <~ local (lib compacted) ;;
         signature <~ local (walletSignMessage B (inr bytesCompact) sender) ;;
         final signature) = snd (final s).
Proof.
  rewrite rbind_local. destruct compacted as [ex|bytesCompact]; cbn [lib fst snd];
    [discriminate|].
  rewrite rbind_local.
  destruct (walletSignMessage B (inr bytesCompact) sender) as [e|s] eqn:Es; cbn [fst snd];
    [discriminate|].
  intros H. exists bytesCompact, s. auto.
Qed.

Lemma truthy_false_text text : truthy (Some text) = false -> text = EmptyString.
Proof. cbn. destruct (String.eqb_spec text EmptyString); [trivial|discriminate]. Qed.

(** An operation that [callSmartContract] or [deploySmartContract] hands
    to the node was signed by the sender over the compacted bytes, with a
    signature that verified, and expires at the node's next period plus
    the offset.  [callSmartContract] goes through the retry helper exactly
    when the configuration says so; [deploySmartContract] never does, and
    sends only a non-empty contract text, decoded. *)
Theorem contract_methods_send_only_signed_operations executor wc :
  (forall callData retry data,
     In (OperationsSent retry data)
        (snd (callSmartContract B number toString IAddressInfo IContractReadOperationData
                clientConfig node compactBytesForOperation callData executor wc)) ->
     retry = retryStrategyOn clientConfig /\
     sentFor (CallData callData) OpCallSC executor wc data /\
     snd (callSmartContract B number toString IAddressInfo IContractReadOperationData
            clientConfig node compactBytesForOperation callData executor wc)
       = [NodeStatusQueried; OperationsSent retry data]) /\
  (forall contractData retry data,
     In (OperationsSent retry data)
        (snd (deploySmartContract B number toString IAddressInfo IContractReadOperationData
                clientConfig node compactBytesForOperation base64Decode
                contractData executor wc)) ->
     retry = false /\
     sentFor (ContractData contractData) OpExecuteSC executor wc data /\
     exists text,
       contractDataBase64 contractData = Some text /\ text <> EmptyString /\
       op data = ExecuteSC (base64Decode text) (sc_maxGas contractData)
                   (toString (sc_coins contractData)) (toString (sc_gasPrice contractData))).
Proof.
  unfold sentFor, Client.sentFor. split.
  - intros callData retry data. unfold callSmartContract.
    rewrite rbind_remote.
    destruct (getNodeStatus node) as [ex|status] eqn:Estatus; cbn [snd].
    { intros [H|[]]. discriminate H. }
    rewrite rbind_senderOf.
    destruct (match executor with Some a => Some a | None => baseAccount wc end)
      as [sender|] eqn:Esender; cbn [snd]; [|intros [H|[]]; discriminate H].
    intros [H|H]; [discriminate H|].
    destruct (tail_events _ _ _ _ _ H) as (bytesCompact & s & Hc & Hs & Hin & Hlog).
    rewrite Hlog.
    destruct (retryStrategyOn clientConfig); cbn [remote snd] in Hin |- *;
      destruct Hin as [Hin|[]]; injection Hin as <- <-;
      (split; [reflexivity|]; split; [|reflexivity];
       exists sender, status, bytesCompact;
       split; [reflexivity|]; split; [reflexivity|]; split; [reflexivity|];
       split; [exact Hc|]; apply (signedBy_intro _ _ s); auto).
  - intros contractData retry data. unfold deploySmartContract.
    rewrite rbind_remote.
    destruct (getNodeStatus node) as [ex|status] eqn:Estatus; cbn [snd].
    { intros [H|[]]. discriminate H. }
    intros [H|H]; [discriminate H|]. revert H.
    destruct (contractDataBase64 contractData) as [text|] eqn:Etext;
      [|rewrite rbind_local; cbn; intros []].
    match goal with
    | |- In _ (snd (rbind ?c ?k)) -> _ =>
        destruct (rbind_quiet c k) as (_ & ->);
        [destruct (Nat.ltb _ _); reflexivity|]
    end.
    intros H. apply in_app_or in H. destruct H as [H|H].
    { exfalso. destruct (Nat.ltb _ _); cbn in H; [destruct H as [H|[]]; discriminate H|
                                                   destruct H]. }
    revert H. cbv beta. rewrite rbind_senderOf.
    destruct (match executor with Some a => Some a | None => baseAccount wc end)
      as [sender|] eqn:Esender; cbn [snd]; [|intros []].
    intros H.
    destruct (tail_events _ _ _ _ _ H) as (bytesCompact & s & Hc & Hs & Hin & _).
    destruct (truthy (Some text)) eqn:Et; cbn [negb] in Hin; [|destruct Hin].
    cbn [remote snd] in Hin. destruct Hin as [Hin|[]]. injection Hin as <- <-.
    split; [reflexivity|]. split.
    + exists sender, status, bytesCompact.
      split; [reflexivity|]. split; [reflexivity|]. split; [reflexivity|].
      split; [exact Hc|]. apply (signedBy_intro _ _ s); auto.
    + exists text. split; [reflexivity|]. split; [|reflexivity].
      intros ->. discriminate Et.
Qed.

(** [deploySmartContract] throws its missing-contract-data error only for
    a contract text that is the empty string, not for a null one, and
    only after the node was asked for its status and the sender signed
    the payload; nothing is sent then. *)
Theorem deploy_rejects_empty_contract_after_signing contractData executor wc :
  fst (deploySmartContract B number toString IAddressInfo IContractReadOperationData
         clientConfig node compactBytesForOperation base64Decode contractData executor wc)
    = inl ContractDataRequired ->
  contractDataBase64 contractData = Some EmptyString /\
  (exists sender status bytesCompact s,
     match executor with Some a => Some a | None => baseAccount wc end = Some sender /\
     getNodeStatus node = inr status /\
     compactBytesForOperation (ContractData contractData) OpExecuteSC sender
       (next_slot_period status + periodOffset clientConfig) = inr bytesCompact /\
     walletSignMessage B (inr bytesCompact) sender = inr s) /\
  snd (deploySmartContract B number toString IAddressInfo IContractReadOperationData
         clientConfig node compactBytesForOperation base64Decode contractData executor wc)
    = [NodeStatusQueried].
Proof.
  unfold deploySmartContract. rewrite rbind_remote.
  destruct (getNodeStatus node) as [ex|status] eqn:Estatus; cbn [fst snd]; [discriminate|].
  destruct (contractDataBase64 contractData) as [text|] eqn:Etext;
    [|rewrite rbind_local; cbn; discriminate].
  match goal with
  | |- fst (rbind ?c ?k) = _ -> _ =>
      destruct (rbind_quiet c k) as (-> & ->);
      [destruct (Nat.ltb _ _); reflexivity|]
  end.
  cbv beta. rewrite rbind_senderOf.
  destruct (match executor with Some a => Some a | None => baseAccount wc end)
    as [sender|] eqn:Esender; cbn [fst snd]; [|discriminate].
  intros H.
  destruct (tail_result _ _ _ H) as (bytesCompact & s & Hc & Hs & Hfin & Hlog).
  rewrite Hlog.
  destruct (truthy (Some text)) eqn:Et; cbn [negb] in Hfin |- *.
  - exfalso. unfold remote in Hfin. cbn [fst] in Hfin.
    destruct (sendOperations node false _); discriminate.
  - apply truthy_false_text in Et. subst text. cbn.
    split; [reflexivity|]. split; [|reflexivity].
    exists sender, status, bytesCompact, s. auto.
Qed.

(** A read-only call carries the caller address given with the call when
    that is a non-empty string, and else the address of the wallet's base
    account; it goes through the retry helper exactly when the
    configuration says so.  With neither a caller address nor a base
    account the method throws a TypeError and sends nothing. *)
Theorem read_call_uses_caller_or_base_address readData wc :
  (forall retry data,
     In (ReadOnlyCallSent retry data)
        (snd (readSmartContract number toString IAddressInfo IContractReadOperationData
                clientConfig node readData wc)) ->
     retry = retryStrategyOn clientConfig /\
     (truthy (callerAddress readData) = true -> caller_address data = callerAddress readData) /\
     (truthy (callerAddress readData) = false ->
      exists base, baseAccount wc = Some base /\ caller_address data = address base)) /\
  (truthy (callerAddress readData) = false -> baseAccount wc = None ->
   readSmartContract number toString IAddressInfo IContractReadOperationData
     clientConfig node readData wc = (inl (Raised TypeError), [])).
Proof.
  unfold readSmartContract. split.
  - intros retry data.
    destruct (truthy (callerAddress readData)) eqn:Et.
    + unfold rbind, rret. cbn [fst snd app].
      destruct (retryStrategyOn clientConfig); cbn [remote snd];
        intros [H|[]]; injection H as <- <-;
        (split; [reflexivity|]; split; [reflexivity|discriminate]).
    + destruct (baseAccount wc) as [base|]; [|cbn; intros []].
      unfold rbind, rret. cbn [fst snd app].
      destruct (retryStrategyOn clientConfig); cbn [remote snd];
        intros [H|[]]; injection H as <- <-;
        (split; [reflexivity|]; split; [discriminate|]; intros _; eauto).
  - intros -> ->. reflexivity.
Qed.

Lemma skipn_nth_error {A} (w : list A) : forall i a,
  nth_error w i = Some a -> skipn i w = a :: skipn (S i) w.
Proof.
  induction w as [|b rest IH]; intros [|i] a H; try discriminate H.
  - injection H as <-. reflexivity.
  - cbn in H. cbn [skipn]. now rewrite (IH i a H).
Qed.

Lemma mergeInfo_spec (w : list IAccount) (l : list IAddressInfo) : forall idx merged,
  mergeInfo IAddressInfo JsValue ofText fieldOf w l idx = inr merged ->
  map info merged = l /\
  forall k f, nth_error merged k = Some f ->
    exists m, nth_error w (idx + k) = Some m /\
              f = fullInfoOf IAddressInfo JsValue ofText fieldOf m (info f).
Proof.
  induction l as [|i rest IH]; intros idx merged H.
  - cbn in H. injection H as <-. split; [reflexivity|]. intros [|k] f Hf; discriminate Hf.
  - cbn [mergeInfo] in H.
    destruct (nth_error w idx) as [account|] eqn:En; [|discriminate].
    destruct (mergeInfo IAddressInfo JsValue ofText fieldOf w rest (S idx))
      as [e|merged'] eqn:Em; [discriminate|].
    injection H as <-. destruct (IH _ _ Em) as (Hi & Hall). split.
    + cbn. now rewrite Hi.
    + intros [|k] f Hf.
      * cbn in Hf. injection Hf as <-. exists account.
        rewrite Nat.add_0_r. split; [exact En|reflexivity].
      * cbn in Hf. destruct (Hall k f Hf) as (m & Hm & Hfm).
        exists m. rewrite Nat.add_succ_r. split; assumption.
Qed.


End Sending.

(** A transfer sent by [aliceSigner] through a node that answers. *)
Lemma wallet_sends_only_signed_operations_witness :
  exists data,
    Client.sentFor Toy.backend string unit unit config readyNode compactToy
      (TxData transfer) OpTransaction (Some Toy.aliceSigner) emptyClient data /\
    op data = Transaction "10" "Abob" /\
    snd (sendTransaction Toy.backend string (fun s => s) unit unit config readyNode
           compactToy transfer (Some Toy.aliceSigner) emptyClient)
      = [NodeStatusQueried; OperationsSent false data].
Proof.
  assert (H : exists data,
            In (OperationsSent false data)
               (snd (sendTransaction Toy.backend string (fun s => s) unit unit config
                       readyNode compactToy transfer (Some Toy.aliceSigner) emptyClient))).
  { eexists. vm_compute. right. left. reflexivity. }
  destruct H as (data & H). exists data.
  destruct (proj1 (wallet_sends_only_signed_operations Toy.backend string (fun s => s)
                     unit unit config readyNode compactToy (Some Toy.aliceSigner) emptyClient)
              transfer false data H) as (_ & Hsent & Hop & Hlog).
  auto.
Defined.

Lemma contract_methods_send_only_signed_operations_witness :
  exists data,
    Client.sentFor Toy.backend string unit unit config readyNode compactToy
      (ContractData contractToy) OpExecuteSC None
      {| wallet := [Toy.aliceSigner]; baseAccount := Some Toy.aliceSigner |} data /\
    exists text,
      contractDataBase64 contractToy = Some text /\ text <> EmptyString /\
      op data = ExecuteSC (list_byte_of_string text) (sc_maxGas contractToy)
                  (sc_coins contractToy) (sc_gasPrice contractToy).
Proof.
  assert (H : exists data,
            In (OperationsSent false data)
               (snd (deploySmartContract Toy.backend string (fun s => s) unit unit config
                       readyNode compactToy list_byte_of_string contractToy None
                       {| wallet := [Toy.aliceSigner];
                          baseAccount := Some Toy.aliceSigner |}))).
  { eexists. vm_compute. right. left. reflexivity. }
  destruct H as (data & H). exists data.
  destruct (proj2 (contract_methods_send_only_signed_operations Toy.backend string
                     (fun s => s) unit unit config readyNode compactToy list_byte_of_string
                     None {| wallet := [Toy.aliceSigner];
                             baseAccount := Some Toy.aliceSigner |})
              contractToy false data H) as (_ & Hsent & Htext).
  auto.
Defined.

(** A deployment of the empty contract text. *)
Lemma deploy_rejects_empty_contract_after_signing_witness :
  contractDataBase64 emptyContract = Some EmptyString /\
  (exists sender status bytesCompact s,
     Some Toy.aliceSigner = Some sender /\
     getNodeStatus readyNode = inr status /\
     compactToy (ContractData emptyContract) OpExecuteSC sender
       (next_slot_period status + periodOffset config) = inr bytesCompact /\
     walletSignMessage Toy.backend (inr bytesCompact) sender = inr s) /\
  snd (deploySmartContract Toy.backend string (fun s => s) unit unit config readyNode
         compactToy list_byte_of_string emptyContract (Some Toy.aliceSigner) emptyClient)
    = [NodeStatusQueried].
Proof.
  apply (deploy_rejects_empty_contract_after_signing Toy.backend string (fun s => s)
           unit unit config readyNode compactToy list_byte_of_string emptyContract
           (Some Toy.aliceSigner) emptyClient).
  vm_compute. reflexivity.
Defined.

Lemma read_call_uses_caller_or_base_address_witness :
  exists data,
    snd (readSmartContract string (fun s => s) unit unit config readyNode readToy
           {| wallet := [Toy.aliceStored]; baseAccount := Some Toy.aliceStored |})
      = [ReadOnlyCallSent false data] /\
    caller_address data = address Toy.aliceStored.
Proof.
  assert (H : exists data,
            snd (readSmartContract string (fun s => s) unit unit config readyNode readToy
                   {| wallet := [Toy.aliceStored]; baseAccount := Some Toy.aliceStored |})
              = [ReadOnlyCallSent false data]).
  { eexists. reflexivity. }
  destruct H as (data & H). exists data. split; [exact H|].
  destruct (proj1 (read_call_uses_caller_or_base_address string (fun s => s) unit unit
                     config readyNode readToy
                     {| wallet := [Toy.aliceStored]; baseAccount := Some Toy.aliceStored |})
              false data) as (_ & _ & Hbase).
  - rewrite H. left. reflexivity.
  - destruct (Hbase eq_refl) as (base & Hb & Hc). injection Hb as <-. exact Hc.
Defined.


End ClientFacts.
